(** * Logic-tree depth and graph flattening of the text analyzer

    A shallow embedding of the two core functions of [app-final.py],
    [get_tree_depth] and [get_agraph_data], and of the match-score
    computation of the analysis button, followed by the properties
    the specification states about them.

    Conventions of the embedding:
    - a parsed tree is the JSON object returned by the parsing service;
      every field may be absent, and a field that is present carries the
      type the data model gives it ([type], [relation], [text]: strings,
      [children]: a sequence of nodes).  [node.get(key)] is an optional
      value and [node.get(key, d)] is [default d] of it;
    - Python integers are [Z]; the float produced by [/] is an IEEE 754
      binary64 value, modelled with the Standard Library's [SpecFloat];
    - a [string] holds the UTF-8 bytes of a Python [str]; [len] and
      slicing count characters (code points), not bytes; [str.upper] is
      the ASCII mapping on ASCII text and, on other text, the case mapping
      of the interpreter's Unicode tables, a parameter of the development;
    - the JSON of a response is a tree of the data model or another
      value, on which the two functions can raise;
    - the lists [nodes_list] and [edges_list], mutated in place by the
      source, are passed in and returned;
    - recursion is unbounded (the interpreter's recursion limit is not
      part of the model). *)

From Stdlib Require Import ZArith Ascii String SpecFloat.
From stdpp Require Import base list strings pretty.

Local Open Scope Z_scope.
Local Open Scope string_scope.
Local Open Scope list_scope.

(** ** Data model *)

(** The JSON object of one tree node.  [None] stands for an absent key. *)
Unset Elimination Schemes.
Inductive LogicNode : Type :=
  Dict (type_ : option string) (relation : option string)
       (text : option string) (children : option (list LogicNode)).
Set Elimination Schemes.

(** [node.get("type")] and its siblings. *)
Definition get_type (n : LogicNode) : option string :=
  let 'Dict ty _ _ _ := n in ty.
Definition get_relation (n : LogicNode) : option string :=
  let 'Dict _ rel _ _ := n in rel.
Definition get_text (n : LogicNode) : option string :=
  let 'Dict _ _ txt _ := n in txt.
Definition get_children (n : LogicNode) : option (list LogicNode) :=
  let 'Dict _ _ _ ch := n in ch.

(** Induction over a tree with the hypothesis available for every child. *)
Section LogicNode_ind.
Variable P : LogicNode -> Prop.
Hypothesis P_absent : forall ty rel txt, P (Dict ty rel txt None).
Hypothesis P_children : forall ty rel txt cs,
  Forall P cs -> P (Dict ty rel txt (Some cs)).

Fixpoint LogicNode_ind (n : LogicNode) : P n :=
  match n with
  | Dict ty rel txt None => P_absent ty rel txt
  | Dict ty rel txt (Some cs) =>
      P_children ty rel txt cs
        ((fix all (l : list LogicNode) : Forall P l :=
            match l with
            | [] => @List.Forall_nil _ P
            | c :: l' =>
                @List.Forall_cons _ P c l' (LogicNode_ind c) (all l')
            end) cs)
  end.
End LogicNode_ind.

(** The visual node and edge objects built by the flattener (the [Node] and
    [Edge] classes of the graph widget, with the keyword arguments the
    source passes; [title] is the tooltip). *)
Record Node : Type := mkNode {
  node_id : string;
  node_label : string;
  node_size : Z;
  node_color : string;
  node_title : string
}.

Record Edge : Type := mkEdge {
  edge_source : string;
  edge_target : string;
  edge_color : string
}.

(** ** FUNCTION 1: get_tree_depth *)

(** The [for child in children] loop: [max_child_depth] is replaced by a
    child's depth whenever that depth is strictly greater. *)
Definition depth_loop (depth_of : LogicNode -> Z)
    (children : list LogicNode) (max_child_depth : Z) : Z :=
  fold_left
    (fun max_child_depth child =>
       let depth := depth_of child in
       if depth >? max_child_depth then depth else max_child_depth)
    children max_child_depth.

(** The absent [children] key reads as the default [[]], which is falsy
    like the empty list; [get_tree_depth_unfold] below gives the body in
    the shape of the source. *)
Fixpoint get_tree_depth (node : LogicNode) : Z :=
  match node with
  | Dict ty _ _ ch =>
      if bool_decide (ty = Some "leaf") then 1
      else
        match ch with
        | None => 1
        | Some [] => 1
        | Some children => 1 + depth_loop get_tree_depth children 0
        end
  end.

(** ** Python strings *)

(** A byte [10xxxxxx] continues a character of UTF-8 text; any other
    byte starts one. *)
Definition continues (c : ascii) : bool :=
  let n := nat_of_ascii c in ((128 <=? n) && (n <? 192))%nat.

Definition starts_inside (g : string) : bool :=
  match g with
  | String c _ => continues c
  | EmptyString => false
  end.

(** The characters of a text, each as its own bytes: a byte joins the
    character after it when that one begins with a continuation byte, so
    every start byte collects the continuation bytes that follow it. *)
Fixpoint chars (s : string) : list string :=
  match s with
  | EmptyString => []
  | String c s' =>
      match chars s' with
      | g :: gs =>
          if starts_inside g then String c g :: gs
          else String c EmptyString :: g :: gs
      | [] => [String c EmptyString]
      end
  end.

(** The text made of a sequence of characters. *)
Definition join (cs : list string) : string := foldr String.append "" cs.

(** [len(s)]: the number of characters. *)
Definition len (s : string) : nat := length (chars s).

(** [s[:n]]: the first [n] characters, or all of [s] when it has fewer. *)
Definition slice_to (n : nat) (s : string) : string := join (take n (chars s)).

(** [s.isascii()]: every byte is below 128. *)
Fixpoint isascii (s : string) : bool :=
  match s with
  | EmptyString => true
  | String c s' => (nat_of_ascii c <? 128)%nat && isascii s'
  end.

(** [str.upper] on ASCII text: the letters [a]..[z] are mapped to
    [A]..[Z], every other character is kept. *)
Definition upper_char (c : ascii) : ascii :=
  let n := nat_of_ascii c in
  if ((97 <=? n) && (n <=? 122))%nat then ascii_of_nat (n - 32) else c.

Fixpoint upper_ascii (s : string) : string :=
  match s with
  | EmptyString => EmptyString
  | String c s' => String (upper_char c) (upper_ascii s')
  end.

Section analyzer.

(** [str.upper] on text that is not ASCII follows the case mapping of the
    Unicode tables built into the interpreter; the tables are not part of
    the sources, and the mapping is a parameter. *)
Variable unicode_upper : string -> string.

Definition upper (s : string) : string :=
  if isascii s then upper_ascii s else unicode_upper s.

(** ** FUNCTION 2: get_agraph_data *)

(** Truthiness of the [parent_id] argument: [None] and the empty string
    are falsy. *)
Definition truthy (parent_id : option string) : bool :=
  match parent_id with
  | None => false
  | Some s => negb (String.eqb s "")
  end.

(** Step 1 of the body: the [Node] appended for [node] under identifier
    [my_unique_id]. *)
Definition make_node (node : LogicNode) (my_unique_id : string) : Node :=
  let relation := upper (default "span" (get_relation node)) in
  let node_type := default "span" (get_type node) in
  let '(color, label, size) :=
    if String.eqb node_type "leaf" then
      let full_text := default "" (get_text node) in
      ("#00C853",
       if (15 <? len full_text)%nat
       then slice_to 15 full_text +:+ "..." else full_text,
       25)
    else ("#2962FF", relation, 15) in
  mkNode my_unique_id label size color
         (default relation (get_text node)).

(** The lists are threaded through the call and through the loop over
    [enumerate(children)]; an absent [children] key is the empty loop. *)
Fixpoint get_agraph_data (node : LogicNode)
    (nodes_list : list Node) (edges_list : list Edge)
    (prefix : string) (parent_id : option string) (my_id_suffix : string)
    {struct node} : list Node * list Edge :=
  let my_unique_id := prefix +:+ "_" +:+ my_id_suffix in
  (* 1. Create the Node *)
  let nodes_list := nodes_list ++ [make_node node my_unique_id] in
  (* 2. Create Edge (Line to Parent) *)
  let edges_list :=
    if truthy parent_id
    then edges_list ++ [mkEdge (default "" parent_id) my_unique_id "#B0BEC5"]
    else edges_list in
  (* 3. Recursion *)
  match node with
  | Dict _ _ _ None => (nodes_list, edges_list)
  | Dict _ _ _ (Some children) =>
      (fix enumerate (children : list LogicNode) (index : nat)
           (nodes_list : list Node) (edges_list : list Edge)
           {struct children} : list Node * list Edge :=
         match children with
         | [] => (nodes_list, edges_list)
         | child :: rest =>
             let child_suffix := my_id_suffix +:+ "_" +:+ pretty index in
             let '(nodes_list, edges_list) :=
               get_agraph_data child nodes_list edges_list prefix
                 (Some my_unique_id) child_suffix in
             enumerate rest (S index) nodes_list edges_list
         end) children 0%nat nodes_list edges_list
  end.

(** The caller's use: two fresh lists, no parent, the default suffix. *)
Definition flatten (node : LogicNode) (prefix : string)
    : list Node * list Edge :=
  get_agraph_data node [] [] prefix None "0".

(** The loop of step 3, as a function of its own, for stating lemmas. *)
Fixpoint children_loop (prefix my_unique_id my_id_suffix : string)
    (children : list LogicNode) (index : nat)
    (nodes_list : list Node) (edges_list : list Edge)
    : list Node * list Edge :=
  match children with
  | [] => (nodes_list, edges_list)
  | child :: rest =>
      let child_suffix := my_id_suffix +:+ "_" +:+ pretty index in
      let '(nodes_list, edges_list) :=
        get_agraph_data child nodes_list edges_list prefix
          (Some my_unique_id) child_suffix in
      children_loop prefix my_unique_id my_id_suffix rest (S index)
        nodes_list edges_list
  end.

(** ** The match score of the analysis button *)

(** IEEE 754 binary64, the format of a Python [float]. *)
Definition prec : Z := 53.
Definition emax : Z := 1024.

(** An integer as an operand of float arithmetic.  The mantissa is kept
    whole: [SFdiv] and [SFmul] round the exact quotient and product, so
    [int / int] is the correctly rounded quotient, as in CPython. *)
Definition float_of_int (z : Z) : spec_float :=
  match z with
  | Z0 => S754_zero false
  | Zpos p => S754_finite false p 0
  | Zneg p => S754_finite true p 0
  end.

(** [a / b] on two integers, for a divisor other than zero. *)
Definition truediv (a b : Z) : spec_float :=
  SFdiv prec emax (float_of_int a) (float_of_int b).

(** [x * k] with a float [x] and an integer [k]. *)
Definition mul_int (x : spec_float) (k : Z) : spec_float :=
  SFmul prec emax x (float_of_int k).

(** [int(x)]: truncation towards zero; [None] where Python raises (on an
    infinity or a NaN). *)
Definition int_of_float (x : spec_float) : option Z :=
  match x with
  | S754_zero _ => Some 0
  | S754_finite s m e =>
      let a := match e with
               | Zneg _ => Z.shiftr (Zpos m) (- e)
               | _ => Z.shiftl (Zpos m) e
               end in
      Some (if s then - a else a)
  | S754_infinity _ | S754_nan => None
  end.

(** Lines 107-110: the score from the two depths. *)
Definition match_score (depth_comp depth_ref : Z) : option Z :=
  if depth_ref >? 0 then
    n ← int_of_float (mul_int (truediv depth_comp depth_ref) 100);
    Some (Z.min 100 n)
  else Some 0.

(** Lines 104-110: the depths of the two parsed trees, then the score. *)
Definition analyze_score (data_ref data_comp : LogicNode) : option Z :=
  let depth_ref := get_tree_depth data_ref in
  let depth_comp := get_tree_depth data_comp in
  match_score depth_comp depth_ref.

(** ** Notions of the specification *)

(** The maximum of a non-empty sequence [x, xs...]. *)
Definition max_of (x : Z) (xs : list Z) : Z := foldr Z.max x xs.

(** The recursion the specification gives for the depth. *)
Definition depth_rule (ty : option string) (child_depths : list Z) : Z :=
  if bool_decide (ty = Some "leaf") then 1
  else match child_depths with
       | [] => 1
       | d :: ds => 1 + max_of d ds
       end.

(** The percentage the specification gives: [min(100, floor(c / r * 100))]
    over the rationals. *)
Definition spec_match_score (c r : Z) : Z := Z.min 100 (c * 100 / r).

(** Number of nodes of a tree. *)
Fixpoint tree_size (n : LogicNode) : nat :=
  match n with
  | Dict _ _ _ None => 1
  | Dict _ _ _ (Some cs) =>
      S (foldr (fun c k => (tree_size c + k)%nat) 0%nat cs)
  end.

(** The subtree reached from [n] by a path of zero-based child indices. *)
Fixpoint subtree (n : LogicNode) (path : list nat) : option LogicNode :=
  match path with
  | [] => Some n
  | i :: path' =>
      c ← default [] (get_children n) !! i; subtree c path'
  end.

(** The nodes of a tree in depth-first pre-order, each with its path from
    the root. *)
Definition under (i : nat) (x : list nat * LogicNode)
    : list nat * LogicNode :=
  (i :: x.1, x.2).

Fixpoint preorder (n : LogicNode) : list (list nat * LogicNode) :=
  ([], n) ::
  match n with
  | Dict _ _ _ None => []
  | Dict _ _ _ (Some cs) =>
      (fix go (cs : list LogicNode) (i : nat) :=
         match cs with
         | [] => []
         | c :: cs' => (under i <$> preorder c) ++ go cs' (S i)
         end) cs 0%nat
  end.

(** The pre-order of a sequence of siblings, the first at index [i]. *)
Fixpoint preorder_from (cs : list LogicNode) (i : nat)
    : list (list nat * LogicNode) :=
  match cs with
  | [] => []
  | c :: cs' => (under i <$> preorder c) ++ preorder_from cs' (S i)
  end.

(** The part of an identifier that a path below a node contributes:
    [_i1_i2..._ik]. *)
Fixpoint ext (path : list nat) : string :=
  match path with
  | [] => ""
  | i :: path' => "_" +:+ pretty i +:+ ext path'
  end.

(** The identifier scheme of the specification: the prefix, then the
    underscore-joined path starting with the root's ["0"]. *)
Definition id_of_path (prefix : string) (path : list nat) : string :=
  prefix +:+ "_" +:+ String.concat "_" ("0" :: (pretty <$> path)).

(** The identifier given to the node at [path] below a node whose own
    suffix is [sfx]. *)
Definition uid (prefix sfx : string) (path : list nat) : string :=
  prefix +:+ "_" +:+ sfx +:+ ext path.

(** The edge that reaches the node at a non-root [path]: from its parent,
    at the path without its last index. *)
Definition edge_to (uid : list nat -> string) (path : list nat) : Edge :=
  mkEdge (uid (removelast path)) (uid path) "#B0BEC5".

(** The nodes and edges one call appends for a pre-order sequence. *)
Definition new_nodes (prefix sfx : string)
    (xs : list (list nat * LogicNode)) : list Node :=
  (fun x => make_node x.2 (uid prefix sfx x.1)) <$> xs.

Definition new_edges (prefix sfx : string)
    (xs : list (list nat * LogicNode)) : list Edge :=
  (fun x => edge_to (uid prefix sfx) x.1) <$> xs.

Definition parent_edge (prefix sfx : string) (parent_id : option string)
    : list Edge :=
  if truthy parent_id
  then [mkEdge (default "" parent_id) (uid prefix sfx []) "#B0BEC5"]
  else [].

Definition traversal_spec (n : LogicNode) : Prop :=
  forall nodes_list edges_list prefix parent_id sfx,
    get_agraph_data n nodes_list edges_list prefix parent_id sfx =
      (nodes_list ++ new_nodes prefix sfx (preorder n),
       edges_list ++ parent_edge prefix sfx parent_id
                  ++ new_edges prefix sfx (tail (preorder n))).

(** The identifiers of the nodes one flattening pass emits. *)
Definition ids (node : LogicNode) (prefix : string) : list string :=
  node_id <$> (flatten node prefix).1.

(** No character of the string is the separator [_]. *)
Fixpoint sep_free (s : string) : bool :=
  match s with
  | "" => true
  | String c s' => negb (Ascii.eqb c "_") && sep_free s'
  end.

(** The string is empty or begins with the separator. *)
Definition sep_headed (t : string) : Prop :=
  t = "" \/ exists t', t = String "_" t'.

(** The label of a leaf: the text, cut after 15 characters and marked
    with an ellipsis when it is longer. *)
Definition ellipsize (t : string) : string :=
  if bool_decide (15 < length (chars t))%nat
  then join (take 15 (chars t)) +:+ "..." else t.

(** The tooltip as the specification words it: the text for a leaf; for
    an internal node the text if present, else the relation. *)
Definition claimed_tooltip (n : LogicNode) : option string :=
  if bool_decide (get_type n = Some "leaf") then get_text n
  else match get_text n with
       | Some t => Some t
       | None => get_relation n
       end.

(** ** Sample trees *)

Definition ex1 : LogicNode := Dict (Some "leaf") None (Some "fuse blew") None.

Definition ex2 : LogicNode :=
  Dict (Some "span") (Some "cause") None
    (Some [Dict (Some "leaf") None (Some "A") None;
           Dict (Some "leaf") None (Some "B") None]).

(** A leaf whose text has 14 characters in 16 bytes, and one whose text
    has 16 characters in 32 bytes. *)
Definition ex_quote : LogicNode :=
  Dict (Some "leaf") None (Some "It’s the motor") None.

Definition ex_accents : LogicNode :=
  Dict (Some "leaf") None (Some "éééééééééééééééé") None.

(** A chain of [k] nested spans above one leaf: a tree of depth [k + 1]. *)
Fixpoint chain (k : nat) : LogicNode :=
  match k with
  | O => Dict (Some "leaf") None (Some "x") None
  | S k' => Dict (Some "span") (Some "cause") None (Some [chain k'])
  end.

(** ** Further notions *)

(** No node typed ["leaf"] has children: the trees on which the depth
    counts every level. *)
Definition proper (n : LogicNode) : Prop :=
  forall path m, subtree n path = Some m ->
    get_type m = Some "leaf" -> default [] (get_children m) = [].

(** The shape of a tree: the same branching, every field erased. *)
Fixpoint shape (n : LogicNode) : LogicNode :=
  match n with
  | Dict _ _ _ None => Dict None None None None
  | Dict _ _ _ (Some cs) => Dict None None None (Some (shape <$> cs))
  end.

(** Every entry of the list that is not at the root path comes after the
    entry of its parent. *)
Definition parent_before (xs : list (list nat * LogicNode)) : Prop :=
  forall k x, xs !! k = Some x -> x.1 <> [] ->
    exists j, (j < k)%nat /\ xs.*1 !! j = Some (removelast x.1).

(** The float carries the sign [sx] (a NaN carries none). *)
Definition has_sign (sx : bool) (x : spec_float) : Prop :=
  match x with
  | S754_zero s | S754_infinity s | S754_finite s _ _ => s = sx
  | S754_nan => True
  end.

(** [m * 2^e] is at least the integer [t]. *)
Definition at_least (t m e : Z) : Prop :=
  if (0 <=? e)%Z then t <= m * 2 ^ e else t * 2 ^ (- e) <= m.

(** A positive float that is finite and at least [t], or an infinity. *)
Definition rounds_at_least (t : Z) (x : spec_float) : Prop :=
  match x with
  | S754_finite false m e => at_least t (Z.pos m) e
  | S754_infinity false => True
  | _ => False
  end.

(** ** The analysis button *)

(** The widget configuration of the two diagrams. *)
Record Config : Type := mkConfig {
  width : Z;
  height : Z;
  directed : bool;
  physics : bool;
  hierarchical : bool
}.

Definition config : Config := mkConfig 400 400 true true true.

(** The JSON of a response: a tree of the data model, or any other value
    (a field that is [null] or of another type, a value that is not an
    object).  On such a value the two functions stop with an exception
    where they meet the field, or run to their end; it is given by what
    they do with it: [get_tree_depth] raises or returns a depth, which is
    1 or more, and [get_agraph_data] raises or fills its two lists. *)
Inductive parsed : Type :=
  | Tree (data : LogicNode)
  | Other (depth : string + positive) (graph : string + ()).

(** What one [requests.post] call does: it raises, with [e] the text of
    the exception, or it returns a response, whose [json()] raises or
    gives the parsed value. *)
Inductive http_result : Type :=
  | PostRaises (e : string)
  | Response (status_code : Z) (json : string + parsed).

(** The calls the handler makes that send or show something, in order
    (the layout containers, columns and spinner, are not recorded).
    [AgraphOther] is the diagram of a value that is not a tree of the data
    model; its nodes and edges are not recorded. *)
Inductive ui_event : Type :=
  | Post (url text : string)
  | StError (body : string)
  | StSuccess (body : string)
  | StMarkdown (body : string)
  | StMetric (label value : string) (delta : option string)
  | StDivider
  | StSubheader (body : string)
  | Agraph (nodes : list Node) (edges : list Edge) (config : Config)
  | AgraphOther (config : Config).

(** A computation of the [try] block: the calls it has made, then the
    value it returns or the text of the exception that ends it. *)
Record shown (A : Type) : Type := Shown {
  events : list ui_event;
  outcome : string + A
}.
Arguments Shown {A} events outcome.
Arguments events {A} _.
Arguments outcome {A} _.

Global Instance shown_ret : MRet shown := fun A a => Shown [] (inr a).

Global Instance shown_bind : MBind shown := fun A B f m =>
  match outcome m with
  | inl e => Shown (events m) (inl e)
  | inr a => Shown (events m ++ events (f a)) (outcome (f a))
  end.

(** One recorded call. *)
Definition st (ev : ui_event) : shown () := Shown [ev] (inr ()).

(** A call that is not recorded and may raise. *)
Definition call {A : Type} (r : string + A) : shown A := Shown [] r.

(** [requests.post(url, json={"text": text}, headers=headers)]. *)
Definition requests_post (url text : string) (r : http_result)
    : shown (Z * (string + parsed)) :=
  st (Post url text);;
  call (match r with
        | PostRaises e => inl e
        | Response status_code json => inr (status_code, json)
        end).

(** The [except Exception as e] handler. *)
Definition connection_failed (e : string) : ui_event :=
  StError ("Connection Failed: " +:+ e).

(** The text of the exception of a failed score computation: the
    division raises when its result is too large, and [int] raises on
    the infinity or NaN that the product can be. *)
Definition score_error (depth_comp depth_ref : Z) : string :=
  match truediv depth_comp depth_ref with
  | S754_infinity _ => "integer division result too large for a float"
  | q =>
      match mul_int q 100 with
      | S754_nan => "cannot convert float NaN to integer"
      | _ => "cannot convert float infinity to integer"
      end
  end.

(** [get_tree_depth(data)] on the JSON of a response. *)
Definition depth_of (data : parsed) : string + Z :=
  match data with
  | Tree data => inr (get_tree_depth data)
  | Other (inl e) _ => inl e
  | Other (inr depth) _ => inr (Z.pos depth)
  end.

(** Lines 107-110 inside the [try] block. *)
Definition score (depth_comp depth_ref : Z) : string + Z :=
  match match_score depth_comp depth_ref with
  | Some match_score => inr match_score
  | None => inl (score_error depth_comp depth_ref)
  end.

(** Lines 135-139 and 143-147: two fresh lists, the flattening pass, then
    the widget, whose call is recorded and taken to return. *)
Definition draw (data : parsed) (prefix : string) : shown () :=
  match data with
  | Tree data =>
      st (Agraph (flatten data prefix).1 (flatten data prefix).2 config)
  | Other _ (inl e) => call (inl e)
  | Other _ (inr _) => st (AgraphOther config)
  end.

(** Lines 103-147: scores, metrics and diagrams of the two parsed values.
    The markdown literal holds the UTF-8 bytes of the source's heading. *)
Definition report (data_ref data_comp : parsed) : shown () :=
  depth_ref ← call (depth_of data_ref);
  depth_comp ← call (depth_of data_comp);
  match_score ← call (score depth_comp depth_ref);
  st (StMarkdown "### 📊 Cognitive Complexity Scores");;
  st (StMetric "Reference Logic Depth" (pretty depth_ref +:+ " Levels") None);;
  st (StMetric "Compared Logic Depth" (pretty depth_comp +:+ " Levels")
               (Some (pretty (depth_comp - depth_ref))));;
  st (StMetric "Complexity Match" (pretty match_score +:+ "%") None);;
  st StDivider;;
  st (StSubheader "Reference Logic Map");;
  draw data_ref "ref";;
  st (StSubheader "Compared Logic Map");;
  draw data_comp "comp".

(** Lines 91-150: the body of the [try] block. *)
Definition try_block (api_url ref_text comp_text : string)
    (post_ref post_comp : http_result) : shown () :=
  resp_ref ← requests_post (api_url +:+ "/parse") ref_text post_ref;
  resp_comp ← requests_post (api_url +:+ "/parse") comp_text post_comp;
  if ((resp_ref.1 =? 200) && (resp_comp.1 =? 200))%Z then
    data_ref ← call resp_ref.2;
    data_comp ← call resp_comp.2;
    st (StSuccess "Analysis Complete!");;
    report data_ref data_comp
  else st (StError ("Server Error: " +:+ pretty resp_ref.1)).

(** Lines 85-152: the body run when the button is clicked, given the
    sidebar's URL, the two texts and what the two requests do. *)
Definition on_click (api_url ref_text comp_text : string)
    (post_ref post_comp : http_result) : list ui_event :=
  if String.eqb api_url "" then
    [StError "Please paste the ngrok URL from Google Colab!"]
  else
    let block := try_block api_url ref_text comp_text post_ref post_comp in
    events block ++
    match outcome block with
    | inl e => [connection_failed e]
    | inr _ => []
    end.

Definition is_post (ev : ui_event) : bool :=
  match ev with Post _ _ => true | _ => false end.
Definition is_error (ev : ui_event) : bool :=
  match ev with StError _ => true | _ => false end.
Definition is_graph (ev : ui_event) : bool :=
  match ev with Agraph _ _ _ | AgraphOther _ => true | _ => false end.

(** The node identifiers of the diagrams drawn of trees of the data model,
    one list per diagram. *)
Definition drawn_ids (trace : list ui_event) : list (list string) :=
  omap (fun ev => match ev with
                  | Agraph nodes _ _ => Some (node_id <$> nodes)
                  | _ => None
                  end) trace.

(** The exponent is not above the one the format gives the value. *)
Definition enough (e m : Z) : Prop := e <= fexp prec emax (Zdigits2 m + e).

(** A zero, or a finite float below [2^K] whose exponent suits its
    mantissa. *)
Definition finite_within (K : Z) (x : spec_float) : Prop :=
  match x with
  | S754_zero _ => True
  | S754_finite _ m e => enough e (Z.pos m) /\ Zdigits2 (Z.pos m) + e <= K
  | _ => False
  end.

(** Renaming the identifiers of a node and of an edge. *)
Definition rename_node (f : string -> string) (v : Node) : Node :=
  mkNode (f (node_id v)) (node_label v) (node_size v) (node_color v)
         (node_title v).

Definition rename_edge (f : string -> string) (e : Edge) : Edge :=
  mkEdge (f (edge_source e)) (f (edge_target e)) (edge_color e).

(** ** The source functions, unfolded *)

(** The body of [get_tree_depth] in the shape of the source: the absent
    [children] key is the default [[]], and [not children] tests emptiness. *)
Lemma get_tree_depth_unfold (node : LogicNode) :
  get_tree_depth node =
    if bool_decide (get_type node = Some "leaf") then 1
    else
      let children := default [] (get_children node) in
      if bool_decide (children = []) then 1
      else 1 + depth_loop get_tree_depth children 0.
Proof. destruct node as [ty rel txt [[|c cs]|]]; reflexivity. Qed.

Lemma get_agraph_data_unfold node nodes_list edges_list prefix parent_id
    my_id_suffix :
  get_agraph_data node nodes_list edges_list prefix parent_id my_id_suffix =
    let my_unique_id := prefix +:+ "_" +:+ my_id_suffix in
    let nodes_list := nodes_list ++ [make_node node my_unique_id] in
    let edges_list :=
      if truthy parent_id
      then edges_list ++ [mkEdge (default "" parent_id) my_unique_id "#B0BEC5"]
      else edges_list in
    children_loop prefix my_unique_id my_id_suffix
      (default [] (get_children node)) 0%nat nodes_list edges_list.
Proof.
  destruct node as [ty rel txt [cs|]]; [|reflexivity].
  cbn -[make_node truthy].
  set (nl := nodes_list ++ _). set (el := if truthy parent_id then _ else _).
  clearbody nl el. generalize 0%nat. revert nl el.
  induction cs as [|c cs IH]; intros nl el i; [reflexivity|].
  cbn. destruct (get_agraph_data c nl el _ _ _) as [nl' el']. apply IH.
Qed.

(** ** Examples of the specification *)

Example ex1_depth : get_tree_depth ex1 = 1.
Proof. reflexivity. Qed.

Example ex1_flatten :
  flatten ex1 "x" = ([mkNode "x_0" "fuse blew" 25 "#00C853" "fuse blew"], []).
Proof. reflexivity. Qed.

Example ex2_depth : get_tree_depth ex2 = 2.
Proof. reflexivity. Qed.

Example ex2_flatten :
  flatten ex2 "x" =
    ([mkNode "x_0" "CAUSE" 15 "#2962FF" "CAUSE";
      mkNode "x_0_0" "A" 25 "#00C853" "A";
      mkNode "x_0_1" "B" 25 "#00C853" "B"],
     [mkEdge "x_0" "x_0_0" "#B0BEC5"; mkEdge "x_0" "x_0_1" "#B0BEC5"]).
Proof. reflexivity. Qed.

(** Characters, not bytes, are counted and kept. *)
Example ex_quote_flatten :
  flatten ex_quote "x"
  = ([mkNode "x_0" "It’s the motor" 25 "#00C853" "It’s the motor"], []).
Proof. reflexivity. Qed.

Example ex_accents_flatten :
  flatten ex_accents "x"
  = ([mkNode "x_0" "ééééééééééééééé..." 25 "#00C853" "éééééééééééééééé"],
     []).
Proof. reflexivity. Qed.

Example ex_upper :
  upper "cause" = "CAUSE" /\ upper "café" = unicode_upper "café".
Proof. done. Qed.

Example ex2_preorder_ids :
  id_of_path "x" <$> (preorder ex2).*1 = ["x_0"; "x_0_0"; "x_0_1"].
Proof. reflexivity. Qed.

Example ex3_score : match_score 2 3 = Some 66.
Proof. reflexivity. Qed.

(** ** Depth: the loop computes a maximum *)

Lemma foldr_max_init (m a : Z) (l : list Z) :
  foldr Z.max (Z.max m a) l = Z.max a (foldr Z.max m l).
Proof. induction l as [|x l IH]; simpl; [lia|rewrite IH; lia]. Qed.

Lemma depth_loop_foldr (f : LogicNode -> Z) (cs : list LogicNode) (m : Z) :
  depth_loop f cs m = foldr Z.max m (f <$> cs).
Proof.
  unfold depth_loop. revert m.
  induction cs as [|c cs IH]; intros m; simpl; [done|].
  rewrite IH. replace (if f c >? m then f c else m) with (Z.max m (f c)).
  - apply foldr_max_init.
  - destruct (Z.gtb_spec (f c) m); lia.
Qed.

Lemma foldr_max_ge_init (m : Z) (l : list Z) : m <= foldr Z.max m l.
Proof. induction l as [|x l IH]; simpl; lia. Qed.

Lemma max_of_from_zero (d : Z) (ds : list Z) :
  0 <= d -> foldr Z.max 0 (d :: ds) = max_of d ds.
Proof.
  intros Hd. unfold max_of. simpl.
  induction ds as [|x ds IH]; simpl; lia.
Qed.

Lemma get_tree_depth_pos (node : LogicNode) : 1 <= get_tree_depth node.
Proof.
  rewrite get_tree_depth_unfold. cbv zeta.
  repeat case_bool_decide; try lia.
  rewrite depth_loop_foldr.
  pose proof (foldr_max_ge_init 0
    (get_tree_depth <$> default [] (get_children node))). lia.
Qed.

Lemma depth_loop_max (c : LogicNode) (cs : list LogicNode) :
  depth_loop get_tree_depth (c :: cs) 0
  = max_of (get_tree_depth c) (get_tree_depth <$> cs).
Proof.
  rewrite depth_loop_foldr. apply max_of_from_zero.
  pose proof (get_tree_depth_pos c). lia.
Qed.

Lemma get_tree_depth_internal ty rel txt (c : LogicNode) cs :
  ty <> Some "leaf" ->
  get_tree_depth (Dict ty rel txt (Some (c :: cs)))
  = 1 + max_of (get_tree_depth c) (get_tree_depth <$> cs).
Proof.
  intros Hty. rewrite get_tree_depth_unfold. cbv zeta.
  cbn [get_type get_children default from_option id].
  rewrite !bool_decide_eq_false_2 by done. by rewrite depth_loop_max.
Qed.

(** ** Strings: identifiers and their decoding *)

Section strings.
Implicit Types s t : string.

Lemma append_nil_l t : "" +:+ t = t.
Proof. reflexivity. Qed.

Lemma append_cons c s t : String c s +:+ t = String c (s +:+ t).
Proof. reflexivity. Qed.

Lemma append_assoc s1 s2 s3 : (s1 +:+ s2) +:+ s3 = s1 +:+ s2 +:+ s3.
Proof.
  induction s1 as [|c s1 IH]; [done|].
  by rewrite !append_cons, IH.
Qed.

Lemma append_nil_r s : s +:+ "" = s.
Proof. induction s as [|c s IH]; [done|]. by rewrite append_cons, IH. Qed.

Lemma append_length s t :
  String.length (s +:+ t) = (String.length s + String.length t)%nat.
Proof.
  induction s as [|c s IH]; [done|].
  rewrite append_cons. simpl. by rewrite IH.
Qed.

(** Two ways of cutting one string: one of the left parts extends the
    other. *)
Lemma append_eq_cases s1 t1 s2 t2 :
  s1 +:+ t1 = s2 +:+ t2 ->
  (exists r, s2 = s1 +:+ r /\ t1 = r +:+ t2) \/
  (exists r, s1 = s2 +:+ r /\ t2 = r +:+ t1).
Proof.
  revert s2. induction s1 as [|c s1 IH]; intros s2 Heq.
  - left. by exists s2.
  - destruct s2 as [|c' s2].
    + right. by exists (String c s1).
    + rewrite !append_cons in Heq. injection Heq as -> Heq.
      destruct (IH _ Heq) as [(r & -> & ->)|(r & -> & ->)];
        [left|right]; by exists r.
Qed.

(** A separator-free word followed by a separator-headed rest is cut in
    one way only. *)
Lemma word_split_inj s1 t1 s2 t2 :
  sep_free s1 -> sep_free s2 -> sep_headed t1 -> sep_headed t2 ->
  s1 +:+ t1 = s2 +:+ t2 -> s1 = s2 /\ t1 = t2.
Proof.
  revert s2. induction s1 as [|c s1 IH]; intros [|c' s2];
    rewrite ?append_cons, ?append_nil_l; simpl.
  - done.
  - intros _ Hc' [->|[t ->]] _; [done|]. intros [= <- _].
    by rewrite Ascii.eqb_refl in Hc'.
  - intros Hc _ _ [->|[t ->]]; [done|]. intros [= -> _].
    by rewrite Ascii.eqb_refl in Hc.
  - intros [_ H1]%andb_prop_elim [_ H2]%andb_prop_elim Ht1 Ht2 [= -> Heq].
    destruct (IH s2 H1 H2 Ht1 Ht2 Heq) as [-> ->]. done.
Qed.
End strings.

(** Decimal numerals contain digits only. *)
Lemma pretty_N_char_sep_free (x : N) : Ascii.eqb (pretty_N_char x) "_" = false.
Proof. unfold pretty_N_char. by repeat case_match. Qed.

Lemma pretty_N_go_sep_free (x : N) (s : string) :
  sep_free s -> sep_free (pretty_N_go x s).
Proof.
  revert s. induction (N.lt_wf_0 x) as [x _ IH]; intros s Hs.
  destruct (decide (x = 0)%N) as [->|Hx]; [by rewrite pretty_N_go_0|].
  rewrite pretty_N_go_step by lia. apply IH.
  - apply N.div_lt; lia.
  - simpl. by rewrite pretty_N_char_sep_free.
Qed.

Lemma pretty_nat_sep_free (i : nat) : sep_free (pretty i).
Proof.
  unfold pretty, pretty_nat, pretty, pretty_N.
  case_decide; [done|]. by apply pretty_N_go_sep_free.
Qed.

Lemma ext_sep_headed (path : list nat) : sep_headed (ext path).
Proof. destruct path; [by left|right; eauto]. Qed.

Lemma ext_inj (p q : list nat) : ext p = ext q -> p = q.
Proof.
  revert q. induction p as [|i p IH]; intros [|j q]; simpl; try done.
  rewrite !append_cons, !append_nil_l. intros [= Heq].
  apply word_split_inj in Heq as [Hij Hpq];
    auto using pretty_nat_sep_free, ext_sep_headed.
  apply (inj pretty) in Hij as ->. by rewrite (IH q Hpq).
Qed.

Lemma concat_ext (h : string) (path : list nat) :
  String.concat "_" (h :: (pretty <$> path)) = h +:+ ext path.
Proof.
  revert h. induction path as [|i path IH]; intros h.
  - simpl. by rewrite append_nil_r.
  - specialize (IH (pretty i)).
    change (String.concat "_" (h :: (pretty <$> i :: path)))
      with (h +:+ "_" +:+ String.concat "_" (pretty i :: (pretty <$> path))).
    by rewrite IH.
Qed.

Lemma id_of_path_ext (prefix : string) (path : list nat) :
  id_of_path prefix path = prefix +:+ "_" +:+ "0" +:+ ext path.
Proof. unfold id_of_path. by rewrite concat_ext. Qed.

Lemma id_of_path_inj (prefix : string) (p q : list nat) :
  id_of_path prefix p = id_of_path prefix q -> p = q.
Proof.
  rewrite !id_of_path_ext. intros Heq.
  apply (inj (String.append prefix)) in Heq.
  rewrite !append_cons, !append_nil_l in Heq.
  injection Heq as Heq. by apply ext_inj.
Qed.

(** ** The flattener as a pre-order traversal *)

Lemma uid_nil prefix sfx : uid prefix sfx [] = prefix +:+ "_" +:+ sfx.
Proof. unfold uid. simpl. by rewrite append_nil_r. Qed.

Lemma uid_child prefix sfx i path :
  uid prefix (sfx +:+ "_" +:+ pretty i) path = uid prefix sfx (i :: path).
Proof. unfold uid. simpl. by rewrite !append_assoc. Qed.

Lemma uid_root prefix path : uid prefix "0" path = id_of_path prefix path.
Proof. by rewrite id_of_path_ext. Qed.

Lemma truthy_unique_id prefix sfx : truthy (Some (prefix +:+ "_" +:+ sfx)) = true.
Proof. by destruct prefix. Qed.

Lemma preorder_unfold (n : LogicNode) :
  preorder n = ([], n) :: preorder_from (default [] (get_children n)) 0.
Proof.
  by destruct n as [ty rel txt [cs|]].
Qed.

Lemma preorder_from_nonroot (cs : list LogicNode) (i : nat) :
  Forall (fun x => x.1 <> []) (preorder_from cs i).
Proof.
  revert i. induction cs as [|c cs IH]; intros i; simpl; [constructor|].
  apply Forall_app; split; [|apply IH].
  apply Forall_fmap, Forall_true. done.
Qed.

Lemma edge_to_under prefix sfx i (x : list nat * LogicNode) :
  x.1 <> [] ->
  edge_to (uid prefix (sfx +:+ "_" +:+ pretty i)) x.1
  = edge_to (uid prefix sfx) (under i x).1.
Proof.
  intros Hx. unfold edge_to. rewrite !uid_child. simpl.
  by destruct (x.1).
Qed.

Lemma new_nodes_under prefix sfx i xs :
  new_nodes prefix (sfx +:+ "_" +:+ pretty i) xs
  = new_nodes prefix sfx (under i <$> xs).
Proof.
  unfold new_nodes. rewrite <-list_fmap_compose.
  apply list_fmap_ext. intros _ x _. simpl. by rewrite uid_child.
Qed.

Lemma new_edges_under prefix sfx i xs :
  Forall (fun x => x.1 <> []) xs ->
  new_edges prefix (sfx +:+ "_" +:+ pretty i) xs
  = new_edges prefix sfx (under i <$> xs).
Proof.
  intros Hxs. unfold new_edges. rewrite <-list_fmap_compose.
  apply Forall_fmap_ext_1. eapply Forall_impl; [exact Hxs|].
  intros x Hx. by apply edge_to_under.
Qed.

Lemma new_edges_child prefix sfx i (c : LogicNode) :
  parent_edge prefix (sfx +:+ "_" +:+ pretty i) (Some (prefix +:+ "_" +:+ sfx))
    ++ new_edges prefix (sfx +:+ "_" +:+ pretty i) (tail (preorder c))
  = new_edges prefix sfx (under i <$> preorder c).
Proof.
  unfold parent_edge. rewrite truthy_unique_id, preorder_unfold.
  cbn [tail fmap list_fmap]. rewrite new_edges_under by apply preorder_from_nonroot.
  unfold new_edges at 2. cbn [fmap list_fmap].
  unfold edge_to at 1.
  cbn [under fst snd removelast default from_option app].
  by rewrite uid_child, uid_nil.
Qed.

Lemma children_loop_spec prefix sfx (cs : list LogicNode) :
  Forall traversal_spec cs ->
  forall i nodes_list edges_list,
    children_loop prefix (prefix +:+ "_" +:+ sfx) sfx cs i
      nodes_list edges_list =
      (nodes_list ++ new_nodes prefix sfx (preorder_from cs i),
       edges_list ++ new_edges prefix sfx (preorder_from cs i)).
Proof.
  induction 1 as [|c cs Hc _ IH]; intros i nl el; simpl.
  { by rewrite !app_nil_r. }
  rewrite Hc, IH, new_nodes_under, new_edges_child.
  unfold new_nodes, new_edges. by rewrite !fmap_app, <-!app_assoc.
Qed.

Lemma get_agraph_data_spec (n : LogicNode) : traversal_spec n.
Proof.
  induction n as [ty rel txt|ty rel txt cs IH] using LogicNode_ind;
    intros nl el prefix pid sfx;
    rewrite get_agraph_data_unfold, preorder_unfold; cbv zeta.
  - unfold new_nodes, new_edges, parent_edge.
    cbn [get_children default from_option id children_loop preorder_from tail
         fmap list_fmap fst snd].
    rewrite uid_nil. destruct (truthy pid); by rewrite ?app_nil_r.
  - cbn [get_children default from_option id]. rewrite (children_loop_spec _ _ _ IH).
    unfold new_nodes, new_edges, parent_edge.
    cbn [tail fmap list_fmap fst snd].
    rewrite uid_nil. destruct (truthy pid); by rewrite <-?app_assoc.
Qed.

(** ** The pre-order lists every node once, at its path *)

Lemma tree_size_unfold (n : LogicNode) :
  tree_size n
  = S (foldr (fun c k => (tree_size c + k)%nat) 0%nat
         (default [] (get_children n))).
Proof. by destruct n as [ty rel txt [cs|]]. Qed.

Lemma preorder_from_length (cs : list LogicNode) (i : nat) :
  Forall (fun c => length (preorder c) = tree_size c) cs ->
  length (preorder_from cs i)
  = foldr (fun c k => (tree_size c + k)%nat) 0%nat cs.
Proof.
  intros Hcs. revert i.
  induction Hcs as [|c cs Hc _ IH]; intros i; [done|].
  simpl. by rewrite length_app, length_fmap, Hc, IH.
Qed.

Lemma preorder_length (n : LogicNode) : length (preorder n) = tree_size n.
Proof.
  induction n as [ty rel txt|ty rel txt cs IH] using LogicNode_ind;
    rewrite preorder_unfold, tree_size_unfold; [reflexivity|].
  cbn [get_children default from_option id length].
  by rewrite preorder_from_length.
Qed.

Lemma elem_of_preorder_from (cs : list LogicNode) (i : nat)
    (x : list nat * LogicNode) :
  x ∈ preorder_from cs i <->
  exists j c y, cs !! j = Some c /\ y ∈ preorder c /\ x = under (i + j) y.
Proof.
  revert i. induction cs as [|c cs IH]; intros i; simpl.
  - split; [by intros ?%elem_of_nil|]. by intros (j & c & y & ? & _).
  - rewrite elem_of_app, list_elem_of_fmap, IH. split.
    + intros [(y & -> & Hy)|(j & c' & y & Hj & Hy & ->)].
      * exists 0%nat, c, y. by rewrite Nat.add_0_r.
      * exists (S j), c', y. by rewrite Nat.add_succ_r.
    + intros ([|j] & c' & y & Hj & Hy & ->).
      * left. exists y. injection Hj as ->. by rewrite Nat.add_0_r.
      * right. exists j, c', y. by rewrite Nat.add_succ_r.
Qed.

Lemma elem_of_preorder (n : LogicNode) (path : list nat) (m : LogicNode) :
  (path, m) ∈ preorder n <-> subtree n path = Some m.
Proof.
  revert path m.
  induction n as [ty rel txt|ty rel txt cs IH] using LogicNode_ind;
    intros path m; rewrite preorder_unfold, elem_of_cons, elem_of_preorder_from;
    cbn [get_children default from_option id].
  - split.
    + intros [[= -> ->]|(j & c & y & Hj & _)]; done.
    + destruct path as [|i path]; simpl; [|done]. intros [= ->]. by left.
  - rewrite Forall_lookup in IH. split.
    + intros [[= -> ->]|(j & c & [q m'] & Hj & Hy & [= -> ->])]; [done|].
      simpl. rewrite Hj. simpl. by apply (IH j c Hj).
    + destruct path as [|i path]; simpl.
      { intros [= ->]. by left. }
      destruct (cs !! i) as [c|] eqn:Hi; simpl; [|done].
      intros Hsub. right. exists i, c, (path, m).
      split_and!; [done| |done]. by apply (IH i c Hi).
Qed.

Lemma preorder_from_heads (cs : list LogicNode) (i : nat)
    (x : list nat * LogicNode) :
  x ∈ preorder_from cs i -> exists j q, (i <= j)%nat /\ x.1 = j :: q.
Proof.
  intros (j & c & y & _ & _ & ->)%elem_of_preorder_from.
  exists (i + j)%nat, y.1. split; [lia|done].
Qed.

Lemma preorder_from_NoDup (cs : list LogicNode) (i : nat) :
  Forall (fun c => NoDup (preorder c).*1) cs ->
  NoDup (preorder_from cs i).*1.
Proof.
  intros Hcs. revert i.
  induction Hcs as [|c cs Hc _ IH]; intros i; simpl; [constructor|].
  rewrite fmap_app. apply NoDup_app. split_and!.
  - rewrite <-list_fmap_compose.
    rewrite (list_fmap_ext (fst ∘ under i) (cons i ∘ fst) (preorder c))
      by done.
    rewrite list_fmap_compose. by apply (NoDup_fmap_2 (cons i)).
  - intros q (x & -> & (y & -> & _)%list_elem_of_fmap)%list_elem_of_fmap
             (z & Hz & Hin)%list_elem_of_fmap.
    apply preorder_from_heads in Hin as (j & q' & Hj & Hq').
    simpl in Hz. rewrite Hq' in Hz. injection Hz as -> _. lia.
  - apply IH.
Qed.

Lemma preorder_NoDup (n : LogicNode) : NoDup (preorder n).*1.
Proof.
  induction n as [ty rel txt|ty rel txt cs IH] using LogicNode_ind;
    rewrite preorder_unfold; cbn [get_children default from_option id fmap
      list_fmap preorder_from fst].
  - apply NoDup_singleton.
  - apply NoDup_cons. split; [|by apply preorder_from_NoDup].
    intros (x & Hx & Hin)%list_elem_of_fmap.
    apply preorder_from_heads in Hin as (j & q & _ & Hq). congruence.
Qed.

Global Instance id_of_path_Inj (prefix : string) : Inj (=) (=) (id_of_path prefix).
Proof. intros p q. apply id_of_path_inj. Qed.

Lemma flatten_nodes (n : LogicNode) (prefix : string) :
  (flatten n prefix).1
  = (fun x => make_node x.2 (id_of_path prefix x.1)) <$> preorder n.
Proof.
  unfold flatten. rewrite get_agraph_data_spec. simpl.
  apply list_fmap_ext. intros _ x _. by rewrite uid_root.
Qed.

Lemma flatten_edges (n : LogicNode) (prefix : string) :
  (flatten n prefix).2
  = (fun x => edge_to (id_of_path prefix) x.1) <$> tail (preorder n).
Proof.
  unfold flatten. rewrite get_agraph_data_spec. simpl.
  apply list_fmap_ext. intros _ x _. unfold edge_to. by rewrite !uid_root.
Qed.

Lemma make_node_id (n : LogicNode) (my_unique_id : string) :
  node_id (make_node n my_unique_id) = my_unique_id.
Proof. unfold make_node. by destruct (String.eqb _ _). Qed.

Lemma ids_preorder (n : LogicNode) (prefix : string) :
  ids n prefix = id_of_path prefix <$> (preorder n).*1.
Proof.
  unfold ids. rewrite flatten_nodes, <-!list_fmap_compose.
  apply list_fmap_ext. intros _ x _. simpl. apply make_node_id.
Qed.

(** ** Properties of the specification *)

(** C1. [get_tree_depth] follows the recursion of the specification: a
    node whose type is ["leaf"] has depth 1 whatever its children are; any
    other node has depth 1 when its children sequence is empty, and
    otherwise 1 plus the maximum of the depths of its children. *)
Theorem get_tree_depth_recursion (node : LogicNode) :
  get_tree_depth node
  = depth_rule (get_type node)
      (get_tree_depth <$> default [] (get_children node)).
Proof.
  rewrite get_tree_depth_unfold. unfold depth_rule. cbv zeta.
  case_bool_decide; [done|].
  destruct (default [] (get_children node)) as [|c cs]; [done|].
  rewrite bool_decide_eq_false_2 by done.
  by rewrite depth_loop_max.
Qed.

(** C8. The depth of every tree is at least 1, so the test
    [depth_ref > 0] of the score computation succeeds and the branch that
    sets the score to 0 is never taken when the reference depth comes from
    [get_tree_depth]. *)
Theorem depth_guard_unreachable (data_ref data_comp : LogicNode) :
  1 <= get_tree_depth data_ref /\
  (get_tree_depth data_ref >? 0) = true /\
  analyze_score data_ref data_comp
  = (n ← int_of_float
           (mul_int (truediv (get_tree_depth data_comp)
                             (get_tree_depth data_ref)) 100);
     Some (Z.min 100 n)).
Proof.
  pose proof (get_tree_depth_pos data_ref) as Hpos.
  assert ((get_tree_depth data_ref >? 0) = true) as Hguard by lia.
  split_and!; [done..|]. unfold analyze_score, match_score.
  by rewrite Hguard.
Qed.

(** C3. The identifiers one flattening pass produces are pairwise
    distinct: the identifier of the node at a path of zero-based child
    indices is the prefix followed by the underscore-joined path that
    starts with the root's ["0"], the pass visits every path of the tree
    once, and the identifier scheme is injective on paths. *)
Theorem flatten_ids_distinct (node : LogicNode) (prefix : string) :
  ids node prefix = id_of_path prefix <$> (preorder node).*1 /\
  NoDup (ids node prefix) /\
  NoDup (preorder node).*1 /\
  Inj (=) (=) (id_of_path prefix) /\
  (forall path m, (path, m) ∈ preorder node <-> subtree node path = Some m).
Proof.
  split_and!.
  - apply ids_preorder.
  - rewrite ids_preorder. apply (NoDup_fmap_2 _), preorder_NoDup.
  - apply preorder_NoDup.
  - apply _.
  - apply elem_of_preorder.
Qed.

(** C4. One flattening pass emits one visual node per node of the tree,
    in pre-order, and one edge per non-root node, from the identifier of
    the node's parent to the identifier of the node; there are as many
    visual nodes as tree nodes and one edge less. *)
Theorem flatten_one_node_one_edge (node : LogicNode) (prefix : string) :
  (flatten node prefix).1
    = (fun x => make_node x.2 (id_of_path prefix x.1)) <$> preorder node /\
  (flatten node prefix).2
    = (fun x => edge_to (id_of_path prefix) x.1) <$> tail (preorder node) /\
  length (flatten node prefix).1 = tree_size node /\
  length (flatten node prefix).2 = (tree_size node - 1)%nat /\
  NoDup (preorder node).*1 /\
  head (preorder node) = Some ([], node) /\
  Forall (fun x => x.1 <> []) (tail (preorder node)) /\
  (forall path m, (path, m) ∈ preorder node <-> subtree node path = Some m).
Proof.
  split_and!.
  - apply flatten_nodes.
  - apply flatten_edges.
  - by rewrite flatten_nodes, length_fmap, preorder_length.
  - rewrite flatten_edges, length_fmap, <-preorder_length.
    destruct (preorder node); simpl; lia.
  - apply preorder_NoDup.
  - by rewrite preorder_unfold.
  - rewrite preorder_unfold. apply preorder_from_nonroot.
  - apply elem_of_preorder.
Qed.

(** C10. [get_agraph_data] only appends to the two lists it is given: the
    lists after the call are the lists before it followed by what the call
    emits on empty lists, which is the pre-order sequence of the tree's
    nodes and, after the edge to the parent if there is one, of its
    non-root nodes' edges; the first elements of each list after the call
    are its elements before the call, in their positions. *)
Theorem get_agraph_data_appends (node : LogicNode)
    (nodes_list : list Node) (edges_list : list Edge)
    (prefix : string) (parent_id : option string) (my_id_suffix : string) :
  get_agraph_data node nodes_list edges_list prefix parent_id my_id_suffix
  = (nodes_list ++ (get_agraph_data node [] [] prefix parent_id my_id_suffix).1,
     edges_list ++ (get_agraph_data node [] [] prefix parent_id my_id_suffix).2)
  /\
  (get_agraph_data node [] [] prefix parent_id my_id_suffix).1
  = new_nodes prefix my_id_suffix (preorder node) /\
  (get_agraph_data node [] [] prefix parent_id my_id_suffix).2
  = parent_edge prefix my_id_suffix parent_id
      ++ new_edges prefix my_id_suffix (tail (preorder node)) /\
  take (length nodes_list)
    (get_agraph_data node nodes_list edges_list prefix parent_id
       my_id_suffix).1 = nodes_list /\
  take (length edges_list)
    (get_agraph_data node nodes_list edges_list prefix parent_id
       my_id_suffix).2 = edges_list.
Proof.
  rewrite !(get_agraph_data_spec node). cbn [fst snd app].
  by rewrite !take_app_length.
Qed.

(** *** Styling *)

Lemma is_leaf_eqb (ty : option string) :
  String.eqb (default "span" ty) "leaf" = bool_decide (ty = Some "leaf").
Proof.
  destruct ty as [s|]; simpl; [|done].
  destruct (String.eqb_spec s "leaf") as [->|Hne]; [done|].
  rewrite bool_decide_eq_false_2; [done|]. by intros [= ->].
Qed.

Lemma make_node_style (node : LogicNode) (my_unique_id : string) :
  make_node node my_unique_id =
    let leaf := bool_decide (get_type node = Some "leaf") in
    let relation := upper (default "span" (get_relation node)) in
    {| node_id := my_unique_id;
       node_label :=
         if leaf then ellipsize (default "" (get_text node)) else relation;
       node_size := if leaf then 25 else 15;
       node_color := if leaf then "#00C853" else "#2962FF";
       node_title := default relation (get_text node) |}.
Proof.
  unfold make_node, ellipsize, slice_to, len. rewrite is_leaf_eqb.
  cbv zeta. case_bool_decide; [|done].
  destruct (Nat.ltb_spec 15 (length (chars (default "" (get_text node)))));
    [by rewrite bool_decide_eq_true_2|by rewrite bool_decide_eq_false_2 by lia].
Qed.

Lemma emitted_node (node : LogicNode) nodes_list edges_list prefix parent_id
    my_id_suffix :
  (get_agraph_data node nodes_list edges_list prefix parent_id my_id_suffix).1
    !! length nodes_list
  = Some (make_node node (prefix +:+ "_" +:+ my_id_suffix)).
Proof.
  rewrite get_agraph_data_unfold. cbv zeta.
  set (el := if truthy parent_id then _ else _). clearbody el.
  assert (forall cs pid i nl el', nl !! length nodes_list
            = Some (make_node node (prefix +:+ "_" +:+ my_id_suffix)) ->
          (children_loop prefix pid my_id_suffix cs i nl el').1
            !! length nodes_list
            = Some (make_node node (prefix +:+ "_" +:+ my_id_suffix))) as Hloop.
  { induction cs as [|c cs IH]; intros pid i nl el' Hnl; [done|].
    simpl. rewrite (get_agraph_data_spec c). apply IH.
    apply lookup_app_l_Some, Hnl. }
  apply Hloop. by rewrite list_lookup_middle.
Qed.

(** C9, amended.  The visual node emitted for a node carries the node's
    identifier and: for a leaf-typed node, as label the text (the empty
    string if absent) cut to its first 15 characters plus ["..."] when it
    has more than 15 characters, size 25 and the leaf colour; for any
    other node, as label the upper-cased relation (["SPAN"] if absent),
    size 15 and the internal colour.  In both cases the tooltip is the
    text if present, else the upper-cased relation.  Characters are those
    of the text, whatever their number of bytes, and the upper-casing is
    [str.upper]. *)
Theorem emitted_node_style (node : LogicNode)
    (nodes_list : list Node) (edges_list : list Edge)
    (prefix : string) (parent_id : option string) (my_id_suffix : string) :
  let leaf := bool_decide (get_type node = Some "leaf") in
  let relation := upper (default "span" (get_relation node)) in
  (get_agraph_data node nodes_list edges_list prefix parent_id my_id_suffix).1
    !! length nodes_list
  = Some {| node_id := prefix +:+ "_" +:+ my_id_suffix;
            node_label :=
              if leaf then ellipsize (default "" (get_text node))
              else relation;
            node_size := if leaf then 25 else 15;
            node_color := if leaf then "#00C853" else "#2962FF";
            node_title := default relation (get_text node) |} /\
  upper "span" = "SPAN".
Proof. cbv zeta. by rewrite emitted_node, make_node_style. Qed.

(** *** Missing fields *)

Lemma get_agraph_data_root_ext (n n' : LogicNode) nodes_list edges_list prefix
    parent_id my_id_suffix :
  make_node n (prefix +:+ "_" +:+ my_id_suffix)
    = make_node n' (prefix +:+ "_" +:+ my_id_suffix) ->
  default [] (get_children n) = default [] (get_children n') ->
  get_agraph_data n nodes_list edges_list prefix parent_id my_id_suffix
  = get_agraph_data n' nodes_list edges_list prefix parent_id my_id_suffix.
Proof.
  intros Hnode Hch. rewrite !get_agraph_data_unfold. cbv zeta.
  by rewrite Hnode, Hch.
Qed.

(** C6. Both functions are total, and an absent field is read as its
    default.  For the depth: an absent [type] is a non-leaf type, absent
    [children] are the empty sequence, and a node without children has
    depth 1.  For the flattener: an absent [type] is ["span"], absent
    [children] are the empty sequence, an absent [relation] is ["span"],
    and an absent [text] gives a leaf the empty label and any node the
    upper-cased relation as tooltip. *)
Theorem missing_fields_defaulted :
  (forall rel txt, get_tree_depth (Dict None rel txt None) = 1) /\
  (forall ty rel txt,
     get_tree_depth (Dict ty rel txt None) = 1 /\
     get_tree_depth (Dict ty rel txt None)
     = get_tree_depth (Dict ty rel txt (Some []))) /\
  (forall rel txt ch,
     get_tree_depth (Dict None rel txt ch)
     = get_tree_depth (Dict (Some "span") rel txt ch)) /\
  (forall rel txt ch nl el prefix pid sfx,
     get_agraph_data (Dict None rel txt ch) nl el prefix pid sfx
     = get_agraph_data (Dict (Some "span") rel txt ch) nl el prefix pid sfx) /\
  (forall ty rel txt nl el prefix pid sfx,
     get_agraph_data (Dict ty rel txt None) nl el prefix pid sfx
     = get_agraph_data (Dict ty rel txt (Some [])) nl el prefix pid sfx) /\
  (forall ty txt ch nl el prefix pid sfx,
     get_agraph_data (Dict ty None txt ch) nl el prefix pid sfx
     = get_agraph_data (Dict ty (Some "span") txt ch) nl el prefix pid sfx) /\
  (forall ty rel ch nl el prefix pid sfx,
     (get_agraph_data (Dict ty rel None ch) nl el prefix pid sfx).1
       !! length nl
     = Some {| node_id := prefix +:+ "_" +:+ sfx;
               node_label := if bool_decide (ty = Some "leaf") then ""
                             else upper (default "span" rel);
               node_size := if bool_decide (ty = Some "leaf") then 25 else 15;
               node_color := if bool_decide (ty = Some "leaf")
                             then "#00C853" else "#2962FF";
               node_title := upper (default "span" rel) |}) /\
  (forall rel txt prefix,
     flatten (Dict None rel txt None) prefix
     = ([make_node (Dict None rel txt None) (prefix +:+ "_0")], [])).
Proof.
  split_and!.
  - done.
  - intros ty rel txt. simpl. by case_bool_decide.
  - by intros rel txt [[|c cs]|].
  - intros. by apply get_agraph_data_root_ext.
  - intros. by apply get_agraph_data_root_ext.
  - intros. by apply get_agraph_data_root_ext.
  - intros. rewrite emitted_node, make_node_style. simpl.
    by case_bool_decide.
  - done.
Qed.

(** *** Children of a leaf-typed node *)

(** C5. A node typed ["leaf"] that has children has depth 1, where the
    same node under another type has depth at least 2; the flattener
    nevertheless emits the visual nodes of all its descendants and their
    edges, exactly those it emits when the node has another type. *)
Theorem leaf_children_asymmetry (rel txt : option string)
    (c : LogicNode) (cs : list LogicNode) (prefix : string) :
  let node := Dict (Some "leaf") rel txt (Some (c :: cs)) in
  get_tree_depth node = 1 /\
  2 <= get_tree_depth (Dict (Some "span") rel txt (Some (c :: cs))) /\
  (flatten node prefix).1
    = make_node node (prefix +:+ "_0")
      :: new_nodes prefix "0" (preorder_from (c :: cs) 0) /\
  (flatten node prefix).2 = new_edges prefix "0" (preorder_from (c :: cs) 0) /\
  make_node c (prefix +:+ "_0_0") ∈ (flatten node prefix).1 /\
  mkEdge (prefix +:+ "_0") (prefix +:+ "_0_0") "#B0BEC5"
    ∈ (flatten node prefix).2 /\
  length (flatten node prefix).1 = tree_size node /\
  (2 <= tree_size node)%nat /\
  (forall ty,
     tail (flatten (Dict ty rel txt (Some (c :: cs))) prefix).1
       = tail (flatten node prefix).1 /\
     (flatten (Dict ty rel txt (Some (c :: cs))) prefix).2
       = (flatten node prefix).2).
Proof.
  cbv zeta.
  assert (forall ty,
    flatten (Dict ty rel txt (Some (c :: cs))) prefix
    = (make_node (Dict ty rel txt (Some (c :: cs))) (prefix +:+ "_0")
         :: new_nodes prefix "0" (preorder_from (c :: cs) 0),
       new_edges prefix "0" (preorder_from (c :: cs) 0))) as Hflat.
  { intros ty. unfold flatten. rewrite get_agraph_data_spec, preorder_unfold.
    unfold new_nodes at 1. cbn [fmap list_fmap fst snd tail app].
    by rewrite uid_nil. }
  assert (([0%nat], c) ∈ preorder_from (c :: cs) 0) as Hin.
  { simpl. rewrite (preorder_unfold c). simpl. apply list_elem_of_here. }
  split_and!.
  - done.
  - rewrite get_tree_depth_internal by done.
    pose proof (get_tree_depth_pos c). unfold max_of.
    pose proof (foldr_max_ge_init (get_tree_depth c) (get_tree_depth <$> cs)).
    lia.
  - by rewrite Hflat.
  - by rewrite Hflat.
  - rewrite Hflat. simpl. apply list_elem_of_further.
    apply list_elem_of_fmap. exists ([0%nat], c). split; [|done].
    simpl. unfold uid. simpl. done.
  - rewrite Hflat. simpl. apply list_elem_of_fmap. exists ([0%nat], c).
    split; [|done]. unfold edge_to, uid. simpl. by rewrite append_nil_r.
  - by rewrite flatten_nodes, length_fmap, preorder_length.
  - pose proof (tree_size_unfold c). simpl in *. lia.
  - intros ty. by rewrite !Hflat.
Qed.

(** *** Prefixes *)

Lemma prefix_append (s r : string) : String.prefix s (s +:+ r) = true.
Proof.
  induction s as [|c s IH]; [by destruct r|].
  rewrite append_cons. simpl. by destruct (ascii_dec c c).
Qed.

Lemma ids_shape (n : LogicNode) (prefix x : string) :
  x ∈ ids n prefix -> exists path, x = prefix +:+ "_0" +:+ ext path.
Proof.
  rewrite ids_preorder. intros (path & -> & _)%list_elem_of_fmap.
  exists path. by rewrite id_of_path_ext.
Qed.

(** A string that is cut before a root suffix [_0...] in two ways: the
    longer left part repeats the root suffix. *)
Lemma root_suffix_overlap (r a b : string) :
  "_0" +:+ a = r +:+ "_0" +:+ b -> r = "" \/ exists r', r = "_0" +:+ r'.
Proof.
  destruct r as [|c1 [|c2 r]]; rewrite ?append_cons, ?append_nil_l.
  - by left.
  - intros Heq. by simplify_eq.
  - intros Heq. simplify_eq. right. by exists r.
Qed.

Lemma ids_overlap_prefix (t1 t2 : LogicNode) (p q x : string) :
  x ∈ ids t1 p -> x ∈ ids t2 q ->
  (exists r, q = p +:+ r) -> p = q \/ String.prefix (p +:+ "_0") q = true.
Proof.
  intros [a ->]%ids_shape [b Heq]%ids_shape [r ->].
  rewrite append_assoc in Heq. apply (inj (String.append p)) in Heq.
  apply root_suffix_overlap in Heq as [->|[r' ->]].
  - left. by rewrite append_nil_r.
  - right. rewrite <-append_assoc. apply prefix_append.
Qed.

(** C2, amended.  Two flattening passes with distinct prefixes, neither of
    which begins with the other followed by ["_0"], produce disjoint sets of
    identifiers, whatever the two trees are. *)
Theorem ids_disjoint (t1 t2 : LogicNode) (p q x : string) :
  p <> q ->
  String.prefix (p +:+ "_0") q = false ->
  String.prefix (q +:+ "_0") p = false ->
  x ∈ ids t1 p -> x ∉ ids t2 q.
Proof.
  intros Hpq Hp Hq H1 H2.
  destruct (ids_shape _ _ _ H1) as [a Ha], (ids_shape _ _ _ H2) as [b Hb].
  rewrite Ha in Hb.
  apply append_eq_cases in Hb as [(r & Hr & _)|(r & Hr & _)].
  - destruct (ids_overlap_prefix t1 t2 p q x H1 H2) as [?|?]; [by exists r|..];
      congruence.
  - destruct (ids_overlap_prefix t2 t1 q p x H2 H1) as [?|?]; [by exists r|..];
      congruence.
Qed.

(** *** The match score in floating point *)

Lemma chain_depth (k : nat) : get_tree_depth (chain k) = Z.of_nat k + 1.
Proof.
  induction k as [|k IH]; [done|].
  cbn [chain]. rewrite get_tree_depth_internal by done.
  unfold max_of. simpl foldr. lia.
Qed.

(** C7 at reference depth 50 and compared depth 29: the quotient [29 / 50]
    is the double just below 0.58, its product with 100 is the double just
    below 58, and [int] truncates it to 57, where
    [min(100, floor(29 / 50 * 100))] is 58.  Reference depth 3 and compared
    depth 2 give 66. *)
Theorem match_score_truncates_below :
  get_tree_depth (chain 49) = 50 /\
  get_tree_depth (chain 28) = 29 /\
  analyze_score (chain 49) (chain 28) = Some 57 /\
  match_score 29 50 = Some 57 /\
  spec_match_score 29 50 = 58 /\
  mul_int (truediv 29 50) 100 = S754_finite false 8162774324609023 (-47) /\
  match_score 2 3 = Some 66 /\
  spec_match_score 2 3 = 66.
Proof.
  split_and!;
    [by rewrite chain_depth | by rewrite chain_depth
    |unfold analyze_score; by rewrite !chain_depth
    |reflexivity..].
Qed.

(** Below reference depth 50 the score is the exact percentage. *)
Lemma match_score_exact_below_50 :
  forallb (fun r =>
    forallb (fun c =>
      bool_decide (match_score c r = Some (spec_match_score c r)))
      (Z.of_nat <$> seq 0 120))
    (Z.of_nat <$> seq 1 49) = true.
Proof. vm_compute. reflexivity. Qed.

(** ** Further properties of the depth *)

Lemma foldr_max_le_sum (f : LogicNode -> Z) (g : LogicNode -> nat)
    (cs : list LogicNode) :
  Forall (fun c => f c <= Z.of_nat (g c)) cs ->
  foldr Z.max 0 (f <$> cs)
  <= Z.of_nat (foldr (fun c k => (g c + k)%nat) 0%nat cs).
Proof.
  induction 1 as [|c cs Hc _ IH]; [done|].
  rewrite fmap_cons. cbn [foldr]. lia.
Qed.

(** X1. The depth of a tree is at most its number of nodes. *)
Theorem get_tree_depth_le_size (node : LogicNode) :
  get_tree_depth node <= Z.of_nat (tree_size node).
Proof.
  induction node as [ty rel txt|ty rel txt cs IH] using LogicNode_ind;
    rewrite get_tree_depth_unfold, tree_size_unfold; cbv zeta;
    cbn [get_type get_children default from_option id].
  - repeat case_bool_decide; simpl; lia.
  - repeat case_bool_decide; try lia.
    rewrite depth_loop_foldr.
    pose proof (foldr_max_le_sum get_tree_depth tree_size cs IH). lia.
Qed.

Lemma foldr_max_elem (d : Z) (ds : list Z) : d ∈ ds -> d <= foldr Z.max 0 ds.
Proof.
  induction ds as [|x ds IH]; [by intros ?%elem_of_nil|].
  intros [->|Hin]%elem_of_cons; simpl; [lia|]. specialize (IH Hin). lia.
Qed.

Lemma foldr_max_attained (ds : list Z) :
  ds <> [] -> Forall (fun d => 0 <= d) ds -> foldr Z.max 0 ds ∈ ds.
Proof.
  induction ds as [|x ds IH]; [done|]. intros _ [Hx Hds]%Forall_cons.
  simpl. destruct ds as [|y ds].
  - simpl. rewrite Z.max_l by lia. apply list_elem_of_here.
  - specialize (IH ltac:(done) Hds).
    destruct (Z.max_spec x (foldr Z.max 0 (y :: ds))) as [[_ ->]|[_ ->]].
    + by apply list_elem_of_further.
    + apply list_elem_of_here.
Qed.

Lemma get_tree_depth_children ty rel txt (cs : list LogicNode) :
  ty <> Some "leaf" -> cs <> [] ->
  get_tree_depth (Dict ty rel txt (Some cs))
  = 1 + foldr Z.max 0 (get_tree_depth <$> cs).
Proof.
  intros Hty Hcs. rewrite get_tree_depth_unfold. cbv zeta.
  cbn [get_type get_children default from_option id].
  rewrite !bool_decide_eq_false_2 by done. by rewrite depth_loop_foldr.
Qed.

Lemma child_depth_lt_aux ty rel txt (cs : list LogicNode) (c : LogicNode) :
  ty <> Some "leaf" -> c ∈ cs ->
  get_tree_depth c < get_tree_depth (Dict ty rel txt (Some cs)).
Proof.
  intros Hty Hc.
  rewrite get_tree_depth_children; [|done|by intros ->; inversion Hc].
  assert (get_tree_depth c ∈ get_tree_depth <$> cs) as Hin
    by (apply list_elem_of_fmap; eauto).
  apply foldr_max_elem in Hin. lia.
Qed.

(** X2. A node that is not typed ["leaf"] is strictly deeper than each of
    its children. *)
Theorem child_depth_lt ty rel txt (cs : list LogicNode) (c : LogicNode) :
  ty <> Some "leaf" -> c ∈ cs ->
  get_tree_depth c < get_tree_depth (Dict ty rel txt (Some cs)).
Proof. apply child_depth_lt_aux. Qed.

Lemma child_depth_lt_witness :
  get_tree_depth (Dict (Some "leaf") None (Some "A") None)
  < get_tree_depth ex2.
Proof.
  apply (child_depth_lt (Some "span") (Some "cause") None _ _).
  - discriminate.
  - apply list_elem_of_here.
Defined.

(** X3. The depth does not depend on the order of the children. *)
Theorem get_tree_depth_permutation ty rel txt (cs cs' : list LogicNode) :
  cs ≡ₚ cs' ->
  get_tree_depth (Dict ty rel txt (Some cs))
  = get_tree_depth (Dict ty rel txt (Some cs')).
Proof.
  intros Hperm. rewrite !get_tree_depth_unfold. cbv zeta.
  cbn [get_type get_children default from_option id].
  case_bool_decide; [done|].
  assert (cs = [] <-> cs' = []) as Hnil.
  { split; intros ->; [by apply Permutation_nil_l in Hperm
                      |by apply Permutation_nil_r in Hperm]. }
  repeat case_bool_decide; try done; try (exfalso; tauto).
  rewrite !depth_loop_foldr. f_equal.
  clear -Hperm.
  induction Hperm; rewrite ?fmap_cons; cbn [foldr]; [done|lia..|congruence].
Qed.

Lemma get_tree_depth_permutation_witness :
  get_tree_depth (Dict (Some "span") None None (Some [chain 2; chain 0]))
  = get_tree_depth (Dict (Some "span") None None (Some [chain 0; chain 2])).
Proof.
  apply (get_tree_depth_permutation (Some "span") None None
           [chain 2; chain 0] [chain 0; chain 2]).
  apply Permutation_swap.
Defined.

(** X4. The depth is reached: some path from the root has as many nodes
    as the depth says. *)
Theorem depth_path_exists (node : LogicNode) :
  exists path m,
    subtree node path = Some m /\
    get_tree_depth node = Z.of_nat (length path) + 1.
Proof.
  induction node as [ty rel txt|ty rel txt cs IH] using LogicNode_ind.
  { exists [], (Dict ty rel txt None). split; [done|].
    simpl. by case_bool_decide. }
  destruct (decide (ty = Some "leaf")) as [Hty|Hty].
  { exists [], (Dict ty rel txt (Some cs)). split; [done|].
    simpl. by rewrite bool_decide_eq_true_2. }
  destruct (decide (cs = [])) as [->|Hcs].
  { exists [], (Dict ty rel txt (Some [])). split; [done|].
    simpl. by case_bool_decide. }
  rewrite get_tree_depth_children by done.
  assert (foldr Z.max 0 (get_tree_depth <$> cs) ∈ get_tree_depth <$> cs)
    as (c & Hmax & Hc)%list_elem_of_fmap.
  { apply foldr_max_attained; [by destruct cs|].
    apply Forall_fmap, Forall_true. intros c. simpl.
    pose proof (get_tree_depth_pos c). lia. }
  apply list_elem_of_lookup in Hc as [i Hi].
  rewrite Forall_lookup in IH.
  destruct (IH i c Hi) as (path & m & Hsub & Hlen).
  exists (i :: path), m. split.
  - simpl. rewrite Hi. done.
  - rewrite Hmax, Hlen. simpl length. lia.
Qed.

Lemma proper_child ty rel txt (cs : list LogicNode) (i : nat) (c : LogicNode) :
  proper (Dict ty rel txt (Some cs)) -> cs !! i = Some c -> proper c.
Proof.
  intros Hn Hi path m Hsub. apply (Hn (i :: path)). simpl. by rewrite Hi.
Qed.

(** X5. In a tree where no node typed ["leaf"] has children, no path from
    the root has more nodes than the depth. *)
Theorem depth_bounds_paths (node : LogicNode) (path : list nat)
    (m : LogicNode) :
  proper node -> subtree node path = Some m ->
  Z.of_nat (length path) + 1 <= get_tree_depth node.
Proof.
  revert path.
  induction node as [ty rel txt|ty rel txt cs IH] using LogicNode_ind;
    intros [|i path] Hproper Hsub.
  - pose proof (get_tree_depth_pos (Dict ty rel txt None)). cbn [length]. lia.
  - simpl in Hsub. discriminate Hsub.
  - pose proof (get_tree_depth_pos (Dict ty rel txt (Some cs))).
    cbn [length]. lia.
  - simpl in Hsub. destruct (cs !! i) as [c|] eqn:Hi; [|done].
    simpl in Hsub.
    assert (ty <> Some "leaf") as Hty.
    { intros Hty. specialize (Hproper [] _ eq_refl Hty). simpl in Hproper.
      by rewrite Hproper in Hi. }
    rewrite Forall_lookup in IH.
    specialize (IH i c Hi path (proper_child _ _ _ _ _ _ Hproper Hi) Hsub).
    pose proof (child_depth_lt_aux ty rel txt cs c Hty
                  (list_elem_of_lookup_2 _ _ _ Hi)).
    cbn [length]. lia.
Qed.

Lemma depth_bounds_paths_witness :
  Z.of_nat (length [1%nat]) + 1 <= get_tree_depth ex2.
Proof.
  apply (depth_bounds_paths ex2 [1%nat] (Dict (Some "leaf") None (Some "B") None)).
  - intros [|[|[|i]] [|j path]] m Hsub Hty; simpl in Hsub;
      try discriminate Hsub;
      injection Hsub as <-; (reflexivity || discriminate Hty).
  - reflexivity.
Defined.

(** ** Further properties of the flattener *)

Lemma ext_app (p q : list nat) : ext (p ++ q) = ext p +:+ ext q.
Proof.
  induction p as [|i p IH]; [done|].
  cbn [app ext]. by rewrite IH, !append_assoc.
Qed.

Lemma id_of_path_snoc (prefix : string) (path : list nat) (i : nat) :
  id_of_path prefix (path ++ [i])
  = id_of_path prefix path +:+ "_" +:+ pretty i.
Proof.
  rewrite !id_of_path_ext, ext_app. cbn [ext].
  by rewrite append_nil_r, !append_assoc.
Qed.

Lemma subtree_app (n : LogicNode) (p q : list nat) :
  subtree n (p ++ q) = m ← subtree n p; subtree m q.
Proof.
  revert n. induction p as [|i p IH]; intros n; [done|].
  cbn [app subtree].
  destruct (default [] (get_children n) !! i) as [c|]; [|done].
  simpl. apply IH.
Qed.

(** The parent of a non-root node of the pre-order is in the pre-order. *)
Lemma preorder_parent (n : LogicNode) (x : list nat * LogicNode) :
  x ∈ preorder n -> x.1 <> [] ->
  exists path i, x.1 = path ++ [i] /\ path ∈ (preorder n).*1.
Proof.
  destruct x as [q m]. intros Hin Hq. simpl in *.
  destruct (exists_last Hq) as (path & i & ->). exists path, i.
  split; [done|]. apply elem_of_preorder in Hin.
  rewrite subtree_app in Hin.
  destruct (subtree n path) as [m'|] eqn:Hsub; [|done].
  apply list_elem_of_fmap. exists (path, m'). split; [done|].
  by apply elem_of_preorder.
Qed.

Lemma edge_to_snoc (prefix : string) (path : list nat) (i : nat) :
  edge_to (id_of_path prefix) (path ++ [i])
  = mkEdge (id_of_path prefix path)
           (id_of_path prefix path +:+ "_" +:+ pretty i) "#B0BEC5".
Proof. unfold edge_to. by rewrite removelast_last, id_of_path_snoc. Qed.

Lemma flatten_edge_inv (n : LogicNode) (prefix : string) (e : Edge) :
  e ∈ (flatten n prefix).2 ->
  exists path i,
    path ∈ (preorder n).*1 /\ path ++ [i] ∈ (preorder n).*1 /\
    e = mkEdge (id_of_path prefix path)
               (id_of_path prefix path +:+ "_" +:+ pretty i) "#B0BEC5".
Proof.
  rewrite flatten_edges. intros (x & -> & Hx)%list_elem_of_fmap.
  rewrite preorder_unfold in Hx. cbn [tail] in Hx.
  assert (x ∈ preorder n) as Hin
    by (rewrite preorder_unfold; by apply list_elem_of_further).
  assert (x.1 <> []) as Hnonroot.
  { pose proof (preorder_from_nonroot (default [] (get_children n)) 0) as H.
    rewrite Forall_forall in H. by apply H. }
  destruct (preorder_parent n x Hin Hnonroot) as (path & i & Hq & Hpath).
  exists path, i. split_and!; [done| |by rewrite Hq, edge_to_snoc].
  rewrite <-Hq. apply list_elem_of_fmap. by exists x.
Qed.

(** X6. Every edge joins two emitted nodes: its source and its target are
    identifiers of the node list of the same pass. *)
Theorem flatten_edges_closed (node : LogicNode) (prefix : string) :
  Forall (fun e => edge_source e ∈ ids node prefix /\
                   edge_target e ∈ ids node prefix)
         (flatten node prefix).2.
Proof.
  apply Forall_forall. intros e (path & i & Hp & Hc & ->)%flatten_edge_inv.
  rewrite ids_preorder. cbn [edge_source edge_target].
  rewrite <-id_of_path_snoc. split; by apply list_elem_of_fmap_2.
Qed.

(** X7. The targets of the edges are the identifiers of the nodes after
    the root, in the order of the node list: every node but the root has
    exactly one incoming edge, and the root has none. *)
Theorem flatten_edge_targets (node : LogicNode) (prefix : string) :
  ids node prefix
    = (prefix +:+ "_0") :: (edge_target <$> (flatten node prefix).2) /\
  NoDup (edge_target <$> (flatten node prefix).2) /\
  prefix +:+ "_0" ∉ edge_target <$> (flatten node prefix).2.
Proof.
  assert (ids node prefix
    = (prefix +:+ "_0") :: (edge_target <$> (flatten node prefix).2)) as Hids.
  { rewrite ids_preorder, flatten_edges, preorder_unfold.
    cbn [fmap list_fmap tail fst]. f_equal.
    rewrite <-!list_fmap_compose. by apply list_fmap_ext. }
  pose proof (ids_preorder node prefix) as Hpre.
  assert (NoDup (ids node prefix)) as Hnodup.
  { rewrite Hpre. apply (NoDup_fmap_2 _), preorder_NoDup. }
  rewrite Hids in Hnodup. apply NoDup_cons in Hnodup as [? ?]. done.
Qed.

(** X8. The target of every edge is its source followed by an underscore
    and a child index; in particular no edge is a loop. *)
Theorem flatten_edge_step (node : LogicNode) (prefix : string) :
  Forall (fun e =>
            (exists i : nat,
               edge_target e = edge_source e +:+ "_" +:+ pretty i) /\
            edge_source e <> edge_target e)
         (flatten node prefix).2.
Proof.
  apply Forall_forall. intros e (path & i & Hp & Hc & ->)%flatten_edge_inv.
  cbn [edge_source edge_target]. split; [by exists i|].
  intros Heq. apply (f_equal String.length) in Heq.
  rewrite !append_length in Heq. simpl in Heq. lia.
Qed.

Lemma preorder_from_parent_before (cs : list LogicNode) (i : nat) :
  Forall (fun c => parent_before (preorder c)) cs ->
  forall k x, preorder_from cs i !! k = Some x ->
    (exists i', x.1 = [i']) \/
    (exists j, (j < k)%nat /\
               (preorder_from cs i).*1 !! j = Some (removelast x.1)).
Proof.
  intros Hcs. revert i.
  induction Hcs as [|c cs Hc _ IH]; intros i k x; cbn [preorder_from].
  { by rewrite lookup_nil. }
  intros [Hk|[Hlen Hk]]%lookup_app_Some.
  - apply list_lookup_fmap_Some in Hk as (y & -> & Hy).
    destruct (decide (y.1 = [])) as [Hroot|Hnonroot].
    { left. exists i. simpl. by rewrite Hroot. }
    right. destruct (Hc k y Hy Hnonroot) as (j & Hj & Hlook).
    exists j. split; [done|].
    rewrite fmap_app, lookup_app_l.
    + rewrite <-list_fmap_compose, list_lookup_fmap.
      rewrite list_lookup_fmap in Hlook.
      destruct (preorder c !! j) as [z|]; [|done].
      simpl in *. injection Hlook as ->. by destruct (y.1).
    + rewrite !length_fmap. apply lookup_lt_Some in Hy. lia.
  - destruct (IH (S i) _ x Hk) as [?|(j & Hj & Hlook)]; [by left|right].
    exists (length (under i <$> preorder c) + j)%nat. split; [lia|].
    rewrite fmap_app.
    replace (length (under i <$> preorder c))
      with (length (under i <$> preorder c).*1) by apply length_fmap.
    by rewrite lookup_app_r, Nat.add_sub_swap, Nat.sub_diag by lia.
Qed.

Lemma preorder_parent_before (n : LogicNode) : parent_before (preorder n).
Proof.
  induction n as [ty rel txt|ty rel txt cs IH] using LogicNode_ind;
    intros k x; rewrite preorder_unfold;
    cbn [get_children default from_option id].
  - destruct k as [|k]; simpl; [by intros [= <-]|done].
  - destruct k as [|k]; [by intros [= <-]|]. cbn [lookup list_lookup].
    intros Hk Hx.
    destruct (preorder_from_parent_before cs 0 IH k x Hk)
      as [[i' Hi']|(j & Hj & Hlook)].
    + exists 0%nat. split; [lia|]. by rewrite Hi'.
    + exists (S j). split; [lia|done].
Qed.

(** X9. Parents are emitted before their children: the edge at position
    [k] of the edge list targets the node at position [k + 1] of the node
    list, and its source is a node at a position up to [k]. *)
Theorem flatten_source_before_target (node : LogicNode) (prefix : string)
    (k : nat) (e : Edge) :
  (flatten node prefix).2 !! k = Some e ->
  ids node prefix !! S k = Some (edge_target e) /\
  exists j, (j <= k)%nat /\ ids node prefix !! j = Some (edge_source e).
Proof.
  rewrite flatten_edges, ids_preorder, list_lookup_fmap, lookup_tail.
  destruct (preorder node !! S k) as [x|] eqn:Hx; [|done].
  intros [= <-]. split.
  - rewrite !list_lookup_fmap, Hx. done.
  - assert (x.1 <> []) as Hnonroot.
    { rewrite preorder_unfold in Hx. cbn [lookup list_lookup] in Hx.
      pose proof (preorder_from_nonroot (default [] (get_children node)) 0)
        as H.
      rewrite Forall_lookup in H. by apply (H k). }
    destruct (preorder_parent_before node (S k) x Hx Hnonroot)
      as (j & Hj & Hlook).
    exists j. split; [lia|].
    rewrite list_lookup_fmap, Hlook. done.
Qed.

Lemma preorder_from_shape (cs : list LogicNode) (i : nat) :
  Forall (fun c => (preorder (shape c)).*1 = (preorder c).*1) cs ->
  (preorder_from (shape <$> cs) i).*1 = (preorder_from cs i).*1.
Proof.
  intros Hcs. revert i.
  induction Hcs as [|c cs Hc _ IH]; intros i; [done|].
  rewrite fmap_cons. cbn [preorder_from].
  rewrite !fmap_app, IH. f_equal.
  rewrite <-!list_fmap_compose.
  rewrite (list_fmap_ext (fst ∘ under i) (cons i ∘ fst) (preorder (shape c)))
    by done.
  rewrite (list_fmap_ext (fst ∘ under i) (cons i ∘ fst) (preorder c)) by done.
  by rewrite !list_fmap_compose, Hc.
Qed.

Lemma preorder_shape (n : LogicNode) :
  (preorder (shape n)).*1 = (preorder n).*1.
Proof.
  induction n as [ty rel txt|ty rel txt cs IH] using LogicNode_ind; [done|].
  rewrite !preorder_unfold. cbn [shape get_children default from_option id].
  rewrite !fmap_cons. f_equal. by apply preorder_from_shape.
Qed.

(** X10. The identifiers and the edges depend on the shape of the tree
    only: erasing every type, relation and text leaves them unchanged. *)
Theorem flatten_shape (node : LogicNode) (prefix : string) :
  ids (shape node) prefix = ids node prefix /\
  (flatten (shape node) prefix).2 = (flatten node prefix).2.
Proof.
  split.
  - by rewrite !ids_preorder, preorder_shape.
  - rewrite !flatten_edges.
    assert (forall xs : list (list nat * LogicNode),
              (fun x => edge_to (id_of_path prefix) x.1) <$> xs
              = edge_to (id_of_path prefix) <$> xs.*1) as Hfst
      by (intros xs; by rewrite <-list_fmap_compose).
    by rewrite !Hfst, !fmap_tail, preorder_shape.
Qed.

(** ** Further properties of the styling *)

Lemma join_chars (s : string) : join (chars s) = s.
Proof.
  induction s as [|c s IH]; [done|]. simpl.
  destruct (chars s) as [|g gs]; [by rewrite <-IH|].
  destruct (starts_inside g); simpl in *; by rewrite <-IH.
Qed.

Lemma chars_cons_head (c : ascii) (s : string) :
  exists r gs, chars (String c s) = String c r :: gs.
Proof.
  simpl. destruct (chars s) as [|g gs]; [by eexists _, _|].
  destruct (starts_inside g); by eexists _, _.
Qed.

Lemma starts_inside_chars (s : string) :
  match chars s with g :: _ => starts_inside g | [] => false end
  = starts_inside s.
Proof.
  destruct s as [|c s]; [done|].
  by destruct (chars_cons_head c s) as (r & gs & ->).
Qed.

Lemma len_cons (c : ascii) (s : string) :
  len (String c s) = if starts_inside s then len s else S (len s).
Proof.
  unfold len. pose proof (starts_inside_chars s) as H. simpl.
  destruct (chars s) as [|g gs]; rewrite <-H; [done|].
  by destruct (starts_inside g).
Qed.

Lemma len_app_le (a b : string) : (len (a +:+ b) <= len a + len b)%nat.
Proof.
  induction a as [|c a IH]; [rewrite append_nil_l; lia|].
  rewrite append_cons, !len_cons. destruct a as [|d a].
  - rewrite append_nil_l. cbn [starts_inside]. unfold len at 3. simpl.
    destruct (starts_inside b); lia.
  - rewrite append_cons in *. cbn [starts_inside].
    destruct (continues d); lia.
Qed.

(** Every character of a text counts as one character. *)
Lemma chars_len_1 (s : string) : Forall (fun g => len g = 1%nat) (chars s).
Proof.
  induction s as [|c s IH]; [by constructor|]. simpl.
  destruct (chars s) as [|g gs]; [by repeat constructor|].
  apply Forall_cons in IH as [Hg Hgs].
  destruct (starts_inside g) eqn:Hin.
  - constructor; [|done]. by rewrite len_cons, Hin.
  - by repeat constructor.
Qed.

Lemma len_join_le (gs : list string) :
  Forall (fun g => len g = 1%nat) gs -> (len (join gs) <= length gs)%nat.
Proof.
  induction 1 as [|g gs Hg _ IH]; [done|].
  cbn [join foldr length]. pose proof (len_app_le g (join gs)).
  unfold join in *. lia.
Qed.

(** A slice to [n] has at most [n] characters, and is the whole text when
    the text has no more. *)
Lemma len_slice_to (n : nat) (s : string) : (len (slice_to n s) <= n)%nat.
Proof.
  unfold slice_to.
  pose proof (len_join_le (take n (chars s))
                (Forall_take _ n _ (chars_len_1 s))) as H.
  rewrite length_take in H. lia.
Qed.

Lemma slice_to_all (n : nat) (s : string) :
  (len s <= n)%nat -> slice_to n s = s.
Proof.
  intros H. unfold slice_to. rewrite take_ge by done. apply join_chars.
Qed.

Lemma ellipsize_len (t : string) : (len (ellipsize t) <= 18)%nat.
Proof.
  unfold ellipsize. case_bool_decide; [|unfold len; lia].
  pose proof (len_app_le (join (take 15 (chars t))) "...").
  pose proof (len_slice_to 15 t). unfold slice_to in *.
  change (len "...") with 3%nat in *. lia.
Qed.

(** X11. Leaf labels are short: the label of a node drawn as a leaf has
    at most 18 characters, the 15 kept and the ellipsis, however long the
    text is and whatever characters it holds. *)
Theorem flatten_label_bounds (node : LogicNode) (prefix : string) :
  Forall (fun v => node_size v = 25 -> (len (node_label v) <= 18)%nat)
         (flatten node prefix).1.
Proof.
  rewrite flatten_nodes. apply Forall_fmap, Forall_true. intros [q m].
  unfold compose. cbn [fst snd]. rewrite make_node_style. cbv zeta.
  cbn [node_size node_label].
  destruct (bool_decide (get_type m = Some "leaf")); [|done].
  intros _. apply ellipsize_len.
Qed.

(** ** Further properties of the match score *)

Lemma binary_round_aux_sign (sx : bool) (mx ex : Z) (lx : location) :
  has_sign sx (binary_round_aux prec emax sx mx ex lx).
Proof.
  unfold binary_round_aux.
  destruct (shr_fexp prec emax mx ex lx) as [mrs' e'].
  destruct (shr_fexp prec emax _ e' loc_Exact) as [mrs'' e''].
  destruct (shr_m mrs'') as [|m|m]; simpl; [done| |done].
  by destruct (e'' <=? emax - prec)%Z.
Qed.

Lemma truediv_sign (a b : Z) : 0 <= a -> 0 < b -> has_sign false (truediv a b).
Proof.
  intros Ha Hb. unfold truediv, SFdiv.
  destruct a as [|a|a], b as [|b|b]; try lia; cbn [float_of_int xorb].
  - done.
  - destruct (SFdiv_core_binary prec emax (Z.pos a) 0 (Z.pos b) 0)
      as [[mz ez] lz].
    apply binary_round_aux_sign.
Qed.

Lemma mul_int_sign (x : spec_float) (k : Z) :
  0 < k -> has_sign false x -> has_sign false (mul_int x k).
Proof.
  intros Hk Hx. unfold mul_int, SFmul.
  destruct k as [|k|k]; try lia. cbn [float_of_int].
  destruct x as [s|s| |s m e]; simpl in Hx; subst; cbn [xorb]; try done.
  apply binary_round_aux_sign.
Qed.

Lemma int_of_float_nonneg (x : spec_float) (n : Z) :
  has_sign false x -> int_of_float x = Some n -> 0 <= n.
Proof.
  destruct x as [s|s| |s m e]; simpl; try done.
  - by intros _ [= <-].
  - intros -> [= <-]. destruct e as [|e|e].
    + rewrite Z.shiftl_0_r. lia.
    + apply Z.shiftl_nonneg. lia.
    + apply Z.shiftr_nonneg. lia.
Qed.

Lemma match_score_range (depth_comp depth_ref n : Z) :
  0 <= depth_comp -> match_score depth_comp depth_ref = Some n ->
  0 <= n <= 100.
Proof.
  intros Hc. unfold match_score.
  destruct (Z.gtb_spec depth_ref 0) as [Hr|Hr]; [|intros [= <-]; lia].
  destruct (int_of_float _) as [k|] eqn:Hk; simpl; [|done].
  intros [= <-]. apply int_of_float_nonneg in Hk; [lia|].
  apply mul_int_sign; [lia|]. by apply truediv_sign.
Qed.

(** X12. Whenever the score of two trees is computed, it lies between 0
    and 100. *)
Theorem analyze_score_range (data_ref data_comp : LogicNode) (n : Z) :
  analyze_score data_ref data_comp = Some n -> 0 <= n <= 100.
Proof.
  unfold analyze_score. apply match_score_range.
  pose proof (get_tree_depth_pos data_comp). lia.
Qed.

Lemma analyze_score_range_witness : 0 <= 57 <= 100.
Proof. apply (analyze_score_range (chain 49) (chain 28) 57). reflexivity. Defined.

Lemma div_eucl_shiftl (m : positive) (s : Z) :
  0 <= s -> Z.div_eucl (Z.shiftl (Z.pos m) s) (Z.pos m) = (2 ^ s, 0).
Proof.
  intros Hs. rewrite Z.shiftl_mul_pow2 by done.
  pose proof (Z.div_mul (2 ^ s) (Z.pos m) ltac:(done)) as Hq.
  pose proof (Z.mod_mul (2 ^ s) (Z.pos m) ltac:(done)) as Hr.
  unfold Z.div, Z.modulo in Hq, Hr.
  rewrite (Z.mul_comm (Z.pos m)).
  destruct (Z.div_eucl (2 ^ s * Z.pos m) (Z.pos m)) as [q r].
  simpl in Hq, Hr. by subst.
Qed.

Lemma truediv_same (p : positive) :
  truediv (Z.pos p) (Z.pos p) = S754_finite false 4503599627370496 (-52).
Proof.
  unfold truediv, SFdiv. cbn [float_of_int xorb].
  unfold SFdiv_core_binary.
  rewrite !Z.add_0_r, !Z.sub_diag.
  change (fexp prec emax 0 `min` 0) with (-53).
  change (0 - -53) with 53.
  cbv iota. rewrite div_eucl_shiftl by done.
  unfold new_location, new_location_even, new_location_odd.
  cbn [Z.eqb]. by destruct (Z.even (Z.pos p)).
Qed.

Lemma match_score_same (d : Z) : 0 < d -> match_score d d = Some 100.
Proof.
  intros Hd. unfold match_score.
  destruct (Z.gtb_spec d 0) as [_|?]; [|lia].
  destruct d as [|p|p]; try lia. by rewrite truediv_same.
Qed.

(** X13. Two trees of the same depth score 100; in particular a tree
    compared with itself does. *)
Theorem analyze_score_same_depth (data_ref data_comp : LogicNode) :
  get_tree_depth data_comp = get_tree_depth data_ref ->
  analyze_score data_ref data_comp = Some 100.
Proof.
  intros Heq. unfold analyze_score. rewrite Heq.
  apply match_score_same. pose proof (get_tree_depth_pos data_ref). lia.
Qed.

Lemma analyze_score_same_depth_witness : analyze_score ex2 ex2 = Some 100.
Proof. apply (analyze_score_same_depth ex2 ex2). reflexivity. Defined.

(** *** A compared tree at least as deep as the reference *)

Lemma shr_1_m (mrs : shr_record) :
  0 <= shr_m mrs -> shr_m (shr_1 mrs) = shr_m mrs / 2.
Proof.
  destruct mrs as [[|[m|m|]|m] r s]; simpl; try done; intros _.
  - rewrite (Pos2Z.inj_xI m). apply Z.div_unique with 1; lia.
  - rewrite (Pos2Z.inj_xO m). apply Z.div_unique with 0; lia.
Qed.

Lemma pow2_xI (p : positive) : 2 ^ Z.pos p~1 = 2 * (2 ^ Z.pos p * 2 ^ Z.pos p).
Proof.
  rewrite (Pos2Z.inj_xI p), Z.pow_add_r, Z.pow_twice_r, Z.pow_1_r by lia. lia.
Qed.

Lemma pow2_xO (p : positive) : 2 ^ Z.pos p~0 = 2 ^ Z.pos p * 2 ^ Z.pos p.
Proof.
  by rewrite (Pos2Z.inj_xO p), Z.pow_twice_r.
Qed.

Lemma iter_pos_shr_m (p : positive) (mrs : shr_record) :
  0 <= shr_m mrs ->
  shr_m (SpecFloat.iter_pos shr_1 p mrs) = shr_m mrs / 2 ^ Z.pos p.
Proof.
  revert mrs.
  induction p as [p IH|p IH|]; intros mrs Hm; cbn [SpecFloat.iter_pos].
  - assert (0 <= shr_m (shr_1 mrs)) as H1
      by (rewrite shr_1_m by done; by apply Z.div_pos).
    assert (0 <= shr_m (SpecFloat.iter_pos shr_1 p (shr_1 mrs))) as H2
      by (rewrite IH by done; apply Z.div_pos; lia).
    rewrite !IH, shr_1_m by done.
    rewrite !Z.div_div by lia. by rewrite pow2_xI.
  - assert (0 <= shr_m (SpecFloat.iter_pos shr_1 p mrs)) as H2
      by (rewrite IH by done; apply Z.div_pos; lia).
    rewrite !IH by done. rewrite Z.div_div by lia. by rewrite pow2_xO.
  - rewrite shr_1_m by done. done.
Qed.

Lemma digits2_pos_bounds (p : positive) :
  2 ^ (Z.pos (digits2_pos p) - 1) <= Z.pos p < 2 ^ Z.pos (digits2_pos p).
Proof.
  induction p as [p IH|p IH|]; cbn [digits2_pos]; [| |simpl; lia].
  - rewrite Pos2Z.inj_succ, (Pos2Z.inj_xI p).
    replace (Z.succ (Z.pos (digits2_pos p)) - 1)
      with (Z.succ (Z.pos (digits2_pos p) - 1)) by lia.
    rewrite !Z.pow_succ_r by lia. lia.
  - rewrite Pos2Z.inj_succ, (Pos2Z.inj_xO p).
    replace (Z.succ (Z.pos (digits2_pos p)) - 1)
      with (Z.succ (Z.pos (digits2_pos p) - 1)) by lia.
    rewrite !Z.pow_succ_r by lia. lia.
Qed.

Lemma at_least_pos (t m e : Z) : 0 < t -> at_least t m e -> 0 < m.
Proof.
  unfold at_least. intros Ht. destruct (Z.leb_spec 0 e) as [He|He].
  - pose proof (Z.pow_pos_nonneg 2 e ltac:(lia) He). nia.
  - pose proof (Z.pow_pos_nonneg 2 (- e) ltac:(lia) ltac:(lia)). nia.
Qed.

Lemma at_least_mono (t m m' e : Z) :
  m <= m' -> at_least t m e -> at_least t m' e.
Proof.
  unfold at_least. intros Hm. destruct (Z.leb_spec 0 e) as [He|He]; [|lia].
  pose proof (Z.pow_pos_nonneg 2 e ltac:(lia) He). nia.
Qed.

Lemma shr_record_of_loc_m (m : Z) (l : location) :
  shr_m (shr_record_of_loc m l) = m.
Proof. by destruct l as [|[]]. Qed.

(** Cutting a mantissa to the precision keeps the value at least [t], for
    an integer [t] that the precision can hold. *)
Lemma shr_fexp_at_least (t m e : Z) (l : location) :
  0 < t <= 2 ^ 52 -> at_least t m e ->
  at_least t (shr_m (shr_fexp prec emax m e l).1)
             (shr_fexp prec emax m e l).2.
Proof.
  intros Ht Hm. pose proof (at_least_pos t m e ltac:(lia) Hm) as Hpos.
  unfold shr_fexp, shr.
  destruct (fexp prec emax (Zdigits2 m + e) - e) as [|k|k] eqn:Hk;
    cbn [fst snd]; rewrite ?shr_record_of_loc_m; try done.
  rewrite iter_pos_shr_m by (rewrite shr_record_of_loc_m; lia).
  rewrite shr_record_of_loc_m.
  destruct m as [|p|p]; try lia. cbn [Zdigits2] in Hk.
  pose proof (digits2_pos_bounds p) as [Hlow _].
  set (d := Z.pos (digits2_pos p)) in *.
  assert (e + Z.pos k = fexp prec emax (d + e)) as -> by lia.
  unfold fexp, SpecFloat.emin, prec, emax in *.
  pose proof (Z.pow_pos_nonneg 2 (Z.pos k) ltac:(lia) ltac:(lia)) as Hk2.
  unfold at_least in *.
  destruct (Z.leb_spec 0 (Z.max (d + e - 53) (3 - 1024 - 53))) as [He2|He2].
  - assert (Z.pos k = d - 53) as Hkd by lia.
    assert (2 ^ 52 <= Z.pos p / 2 ^ Z.pos k) as Hq.
    { apply Z.div_le_lower_bound; [lia|].
      rewrite <-Z.pow_add_r by lia.
      replace (Z.pos k + 52) with (d - 1) by lia. done. }
    pose proof (Z.pow_pos_nonneg 2 (Z.max (d + e - 53) (3 - 1024 - 53))
                  ltac:(lia) He2).
    nia.
  - destruct (Z.leb_spec 0 e) as [He|He]; [lia|].
    apply Z.div_le_lower_bound; [lia|].
    replace (- e) with (Z.pos k + - Z.max (d + e - 53) (3 - 1024 - 53))
      in Hm by lia.
    rewrite Z.pow_add_r in Hm by lia. lia.
Qed.

Lemma round_nearest_even_ge (m : Z) (l : location) :
  m <= round_nearest_even m l.
Proof.
  destruct l as [|[]]; simpl; try lia. destruct (Z.even m); lia.
Qed.

Lemma binary_round_aux_at_least (t mx ex : Z) (lx : location) :
  0 < t <= 2 ^ 52 -> at_least t mx ex ->
  rounds_at_least t (binary_round_aux prec emax false mx ex lx).
Proof.
  intros Ht Hm. unfold binary_round_aux.
  pose proof (shr_fexp_at_least t mx ex lx Ht Hm) as H1.
  destruct (shr_fexp prec emax mx ex lx) as [mrs' e']. cbn [fst snd] in H1.
  eapply at_least_mono in H1; [|apply (round_nearest_even_ge _
                                         (loc_of_shr_record mrs'))].
  pose proof (shr_fexp_at_least t _ e' loc_Exact Ht H1) as H2.
  destruct (shr_fexp prec emax _ e' loc_Exact) as [mrs'' e''].
  cbn [fst snd] in H2.
  pose proof (at_least_pos t _ _ ltac:(lia) H2) as Hpos.
  destruct (shr_m mrs'') as [|m|m]; try lia.
  by destruct (e'' <=? emax - prec)%Z.
Qed.

Lemma truediv_at_least_1 (c r : positive) :
  Z.pos r <= Z.pos c -> rounds_at_least 1 (truediv (Z.pos c) (Z.pos r)).
Proof.
  intros Hrc. unfold truediv, SFdiv. cbn [float_of_int xorb].
  unfold SFdiv_core_binary. rewrite !Z.add_0_r, Z.sub_diag.
  set (e' := Z.min _ 0).
  assert (e' <= 0) as He' by (subst e'; lia).
  assert (match 0 - e' with
          | 0 => Z.pos c
          | Z.pos _ => Z.shiftl (Z.pos c) (0 - e')
          | Z.neg _ => 0
          end = Z.pos c * 2 ^ (- e')) as ->.
  { rewrite Z.sub_0_l. destruct (- e') as [|s|s] eqn:Hs; [simpl; lia| |lia].
    by rewrite Z.shiftl_mul_pow2. }
  pose proof (Z.pow_pos_nonneg 2 (- e') ltac:(lia) ltac:(lia)) as Hpow.
  assert (2 ^ (- e') <= Z.pos c * 2 ^ (- e') / Z.pos r) as Hq.
  { apply Z.div_le_lower_bound; [lia|]. nia. }
  unfold Z.div in Hq.
  destruct (Z.div_eucl (Z.pos c * 2 ^ (- e')) (Z.pos r)) as [q rem].
  cbn [fst] in Hq.
  apply binary_round_aux_at_least; [done|].
  unfold at_least. destruct (Z.leb_spec 0 e') as [H0|H0]; [|lia].
  assert (e' = 0) as Hz by lia. rewrite Hz in *. simpl in *. lia.
Qed.

Lemma mul_int_at_least (x : spec_float) :
  rounds_at_least 1 x -> rounds_at_least 100 (mul_int x 100).
Proof.
  unfold mul_int, SFmul. cbn [float_of_int].
  destruct x as [s|[]| |[] m e]; simpl; try done.
  intros Hx. apply binary_round_aux_at_least; [done|].
  rewrite Z.add_0_r, Pos2Z.inj_mul. unfold at_least in *.
  destruct (0 <=? e)%Z; lia.
Qed.

Lemma int_of_float_at_least (x : spec_float) :
  rounds_at_least 100 x ->
  int_of_float x = None \/ exists n, int_of_float x = Some n /\ 100 <= n.
Proof.
  destruct x as [s|[]| |[] m e]; simpl; try done; [by left|].
  intros Hx. right. eexists. split; [done|].
  unfold at_least in Hx. destruct e as [|e|e].
  - change (0 <=? 0)%Z with true in Hx. cbv iota in Hx.
    rewrite Z.pow_0_r in Hx. rewrite Z.shiftl_0_r. lia.
  - change (0 <=? Z.pos e)%Z with true in Hx. cbv iota in Hx.
    by rewrite Z.shiftl_mul_pow2.
  - change (0 <=? Z.neg e)%Z with false in Hx.
    change (- Z.neg e) with (Z.pos e) in *.
    rewrite Z.shiftr_div_pow2 by lia.
    apply Z.div_le_lower_bound; [by apply Z.pow_pos_nonneg|].
    cbv iota in Hx. lia.
Qed.

Lemma match_score_capped (depth_comp depth_ref : Z) :
  0 < depth_ref <= depth_comp ->
  match_score depth_comp depth_ref = Some 100 \/
  match_score depth_comp depth_ref = None.
Proof.
  intros [Hr Hrc]. unfold match_score.
  destruct (Z.gtb_spec depth_ref 0) as [_|?]; [|lia].
  destruct depth_ref as [|r|r], depth_comp as [|c|c]; try lia.
  destruct (int_of_float_at_least _
              (mul_int_at_least _ (truediv_at_least_1 c r Hrc)))
    as [->|(n & -> & Hn)]; [by right|left].
  simpl. f_equal. lia.
Qed.

(** X14. When the compared tree is at least as deep as the reference
    tree, the score is 100, unless the float computation overflows (where
    Python raises [OverflowError]). *)
Theorem analyze_score_capped (data_ref data_comp : LogicNode) :
  get_tree_depth data_ref <= get_tree_depth data_comp ->
  analyze_score data_ref data_comp = Some 100 \/
  analyze_score data_ref data_comp = None.
Proof.
  intros Hle. apply match_score_capped.
  pose proof (get_tree_depth_pos data_ref). lia.
Qed.

Lemma analyze_score_capped_witness :
  analyze_score ex1 ex2 = Some 100 \/ analyze_score ex1 ex2 = None.
Proof. apply (analyze_score_capped ex1 ex2). by vm_compute. Defined.

(** ** Properties of the analysis button *)

Example on_click_ok :
  on_click "http://h" "a" "b"
    (Response 200 (inr (Tree ex2))) (Response 200 (inr (Tree ex1)))
  = [Post "http://h/parse" "a"; Post "http://h/parse" "b";
     StSuccess "Analysis Complete!";
     StMarkdown "### 📊 Cognitive Complexity Scores";
     StMetric "Reference Logic Depth" "2 Levels" None;
     StMetric "Compared Logic Depth" "1 Levels" (Some "-1");
     StMetric "Complexity Match" "50%" None;
     StDivider;
     StSubheader "Reference Logic Map";
     Agraph (flatten ex2 "ref").1 (flatten ex2 "ref").2 config;
     StSubheader "Compared Logic Map";
     Agraph (flatten ex1 "comp").1 (flatten ex1 "comp").2 config].
Proof. reflexivity. Qed.

(** A compared response whose root has [children: null]: the depth is 1,
    and the flattening pass raises at line 67, after the reference diagram
    has been drawn. *)
Example on_click_null_children :
  on_click "http://h" "a" "b"
    (Response 200 (inr (Tree ex2)))
    (Response 200 (inr (Other (inr 1%positive)
                          (inl "'NoneType' object is not iterable"))))
  = [Post "http://h/parse" "a"; Post "http://h/parse" "b";
     StSuccess "Analysis Complete!";
     StMarkdown "### 📊 Cognitive Complexity Scores";
     StMetric "Reference Logic Depth" "2 Levels" None;
     StMetric "Compared Logic Depth" "1 Levels" (Some "-1");
     StMetric "Complexity Match" "50%" None;
     StDivider;
     StSubheader "Reference Logic Map";
     Agraph (flatten ex2 "ref").1 (flatten ex2 "ref").2 config;
     StSubheader "Compared Logic Map";
     StError "Connection Failed: 'NoneType' object is not iterable"].
Proof. reflexivity. Qed.

(** The handler without its monad: the trace by cases on what the two
    requests do. *)
Lemma on_click_unfold (api_url ref_text comp_text : string)
    (post_ref post_comp : http_result) :
  on_click api_url ref_text comp_text post_ref post_comp
  = if String.eqb api_url "" then
      [StError "Please paste the ngrok URL from Google Colab!"]
    else
      Post (api_url +:+ "/parse") ref_text ::
      match post_ref with
      | PostRaises e => [connection_failed e]
      | Response status_ref json_ref =>
          Post (api_url +:+ "/parse") comp_text ::
          match post_comp with
          | PostRaises e => [connection_failed e]
          | Response status_comp json_comp =>
              if ((status_ref =? 200) && (status_comp =? 200))%Z then
                match json_ref, json_comp with
                | inl e, _ | inr _, inl e => [connection_failed e]
                | inr data_ref, inr data_comp =>
                    StSuccess "Analysis Complete!"
                    :: events (report data_ref data_comp)
                    ++ match outcome (report data_ref data_comp) with
                       | inl e => [connection_failed e]
                       | inr _ => []
                       end
                end
              else [StError ("Server Error: " +:+ pretty status_ref)]
          end
      end.
Proof.
  unfold on_click, try_block, requests_post.
  destruct (String.eqb api_url ""); [done|].
  destruct post_ref as [e|status_ref json_ref]; [done|].
  destruct post_comp as [e|status_comp json_comp]; [done|].
  cbn [mbind shown_bind st call events outcome app fst snd].
  destruct ((status_ref =? 200) && (status_comp =? 200))%Z; [|done].
  destruct json_ref as [e|data_ref]; [done|].
  destruct json_comp as [e|data_comp]; [done|].
  cbn [mbind shown_bind st call events outcome app fst snd].
  by destruct (outcome (report data_ref data_comp)).
Qed.

(** The report without its monad, by cases on the two depths, the score
    and the two flattening passes. *)
Ltac report_cases data_ref data_comp :=
  unfold report, depth_of, score, draw, connection_failed;
  destruct data_ref as [?|[?|?] [?|[]]], data_comp as [?|[?|?] [?|[]]];
  cbn [mbind shown_bind st call events outcome app];
  repeat match goal with
         | |- context [match match_score ?c ?r with Some _ => _ | _ => _ end] =>
             destruct (match_score c r);
             cbn [mbind shown_bind st call events outcome app]
         end.

Ltac on_click_cases :=
  rewrite on_click_unfold;
  repeat match goal with
         | |- context [if ?b then _ else _] => destruct b eqn:?
         | |- context [match ?x with PostRaises _ => _ | _ => _ end] =>
             destruct x as [?|? ?]
         | |- context [match ?x with inl _ => _ | inr _ => _ end] =>
             is_var x; destruct x as [?|?]
         end;
  unfold connection_failed;
  try match goal with
      | |- context [report ?d1 ?d2] => report_cases d1 d2
      end.

(** X15. Requests: without a URL nothing is sent; otherwise the reference
    text is posted to [<api_url>/parse], and the compared text is posted
    to the same address exactly when the first request did not raise. *)
Theorem on_click_requests (api_url ref_text comp_text : string)
    (post_ref post_comp : http_result) :
  List.filter is_post (on_click api_url ref_text comp_text post_ref post_comp)
  = if String.eqb api_url "" then []
    else Post (api_url +:+ "/parse") ref_text ::
         match post_ref with
         | PostRaises _ => []
         | Response _ _ => [Post (api_url +:+ "/parse") comp_text]
         end.
Proof. on_click_cases; reflexivity. Qed.

(** X16. When one of the two responses is not a 200, nothing is analysed
    and the single message names the status of the reference response,
    also when it is the compared request that failed. *)
Theorem on_click_server_error (api_url ref_text comp_text : string)
    (status_ref status_comp : Z) (json_ref json_comp : string + parsed) :
  api_url <> "" -> ~ (status_ref = 200 /\ status_comp = 200) ->
  on_click api_url ref_text comp_text
    (Response status_ref json_ref) (Response status_comp json_comp)
  = [Post (api_url +:+ "/parse") ref_text;
     Post (api_url +:+ "/parse") comp_text;
     StError ("Server Error: " +:+ pretty status_ref)].
Proof.
  intros Hurl Hstatus. rewrite on_click_unfold.
  rewrite (proj2 (String.eqb_neq _ _) Hurl).
  destruct (Z.eqb_spec status_ref 200), (Z.eqb_spec status_comp 200);
    simpl; tauto.
Qed.

(** X17. A run shows at most one error message, and nothing after it; it
    draws at most two diagrams, and a run that shows no error message has
    sent both requests and drawn both diagrams. *)
Theorem on_click_errors_or_graphs (api_url ref_text comp_text : string)
    (post_ref post_comp : http_result) :
  let trace := on_click api_url ref_text comp_text post_ref post_comp in
  (length (List.filter is_error trace) <= 1)%nat /\
  existsb is_error (removelast trace) = false /\
  (length (List.filter is_graph trace) <= 2)%nat /\
  (existsb is_error trace = false ->
   length (List.filter is_post trace) = 2%nat /\
   length (List.filter is_graph trace) = 2%nat).
Proof. cbv zeta. on_click_cases; simpl; split_and!; auto; done. Qed.

Lemma ref_comp_disjoint (t1 t2 : LogicNode) :
  ids t1 "ref" ## ids t2 "comp".
Proof.
  intros x H1 H2.
  destruct (ids_shape _ _ _ H1) as [a Ha], (ids_shape _ _ _ H2) as [b Hb].
  rewrite Ha in Hb.
  apply append_eq_cases in Hb as [(r & Hr & _)|(r & Hr & _)].
  - by destruct r as [|? [|? [|? [|? ?]]]].
  - by destruct r as [|? [|? [|? [|? [|? ?]]]]].
Qed.

Lemma ids_NoDup (n : LogicNode) (prefix : string) : NoDup (ids n prefix).
Proof. rewrite ids_preorder. apply (NoDup_fmap_2 _), preorder_NoDup. Qed.

(** X18. The node identifiers of all diagrams drawn in one run are
    pairwise distinct, within each diagram and across the two (of a
    response that is not a tree of the data model no identifier is
    recorded). *)
Theorem on_click_drawn_ids_distinct (api_url ref_text comp_text : string)
    (post_ref post_comp : http_result) :
  NoDup (concat (drawn_ids
           (on_click api_url ref_text comp_text post_ref post_comp))).
Proof.
  on_click_cases; simpl; rewrite ?app_nil_r; try apply NoDup_nil_2;
    try apply ids_NoDup.
  apply NoDup_app. split_and!.
  - apply ids_NoDup.
  - intros x Hx Hx'. exact (ref_comp_disjoint _ _ x Hx Hx').
  - apply ids_NoDup.
Qed.

(** *** The score computation does not overflow *)

Lemma fexp_mono (a b : Z) : a <= b -> fexp prec emax a <= fexp prec emax b.
Proof. unfold fexp. lia. Qed.

Lemma fexp_ge_emin (a : Z) : -1074 <= fexp prec emax a.
Proof. unfold fexp, SpecFloat.emin, prec, emax. lia. Qed.

Lemma Zdigits2_nonneg (m : Z) : 0 <= Zdigits2 m.
Proof. by destruct m. Qed.

Lemma Zdigits2_bounds (m : Z) :
  0 < m -> 2 ^ (Zdigits2 m - 1) <= m < 2 ^ Zdigits2 m.
Proof. destruct m as [|p|p]; try lia. intros _. apply digits2_pos_bounds. Qed.

Lemma Zdigits2_le_pow (m n : Z) : 0 <= n -> 0 <= m < 2 ^ n -> Zdigits2 m <= n.
Proof.
  intros Hn [Hm Hlt]. destruct (decide (m = 0)) as [->|Hm0]; [done|].
  pose proof (Zdigits2_bounds m ltac:(lia)) as [Hlow _].
  destruct (Z.le_gt_cases (Zdigits2 m) n) as [|Hgt]; [done|].
  pose proof (Z.pow_le_mono_r 2 n (Zdigits2 m - 1) ltac:(lia) ltac:(lia)).
  lia.
Qed.

Lemma Zdigits2_ge_pow (m n : Z) : 0 <= n -> 2 ^ n <= m -> n + 1 <= Zdigits2 m.
Proof.
  intros Hn Hle.
  pose proof (Z.pow_pos_nonneg 2 n ltac:(lia) Hn).
  pose proof (Zdigits2_bounds m ltac:(lia)) as [_ Hup].
  destruct (Z.le_gt_cases (n + 1) (Zdigits2 m)) as [|Hgt]; [done|].
  pose proof (Zdigits2_nonneg m).
  pose proof (Z.pow_le_mono_r 2 (Zdigits2 m) n ltac:(lia) ltac:(lia)).
  lia.
Qed.

Lemma Zdigits2_mono (a b : Z) : 0 <= a <= b -> Zdigits2 a <= Zdigits2 b.
Proof.
  intros [Ha Hab]. destruct (decide (a = 0)) as [->|Ha0].
  { apply Zdigits2_nonneg. }
  pose proof (Zdigits2_bounds a ltac:(lia)) as [Hlow _].
  pose proof (Zdigits2_bounds a ltac:(lia)) as [_ Hup].
  assert (1 <= Zdigits2 a).
  { destruct a as [|p|p]; try lia. simpl. lia. }
  pose proof (Zdigits2_ge_pow b (Zdigits2 a - 1) ltac:(lia) ltac:(lia)). lia.
Qed.

Lemma shr_fexp_enough (m e : Z) (l : location) :
  0 <= m -> enough e m ->
  (shr_fexp prec emax m e l).2 = fexp prec emax (Zdigits2 m + e) /\
  shr_m (shr_fexp prec emax m e l).1
  = m / 2 ^ (fexp prec emax (Zdigits2 m + e) - e).
Proof.
  intros Hm He. unfold enough in He. unfold shr_fexp, shr.
  destruct (fexp prec emax (Zdigits2 m + e) - e) as [|k|k] eqn:Hk;
    cbn [fst snd]; try lia.
  - rewrite shr_record_of_loc_m, Z.pow_0_r, Z.div_1_r. split; lia.
  - rewrite iter_pos_shr_m, shr_record_of_loc_m
      by (rewrite shr_record_of_loc_m; lia).
    split; [lia|done].
Qed.

Lemma round_nearest_even_le (m : Z) (l : location) :
  round_nearest_even m l <= m + 1.
Proof.
  destruct l as [|[]]; simpl; try lia. destruct (Z.even m); lia.
Qed.

(** Shifting right by [k] removes [k] digits. *)
Lemma div_pow2_digits (m k : Z) :
  0 <= k -> 0 < m / 2 ^ k -> Zdigits2 (m / 2 ^ k) = Zdigits2 m - k.
Proof.
  intros Hk Hq.
  pose proof (Z.pow_pos_nonneg 2 k ltac:(lia) Hk) as Hpow.
  assert (0 < m) as Hm.
  { destruct (Z.lt_ge_cases 0 m) as [|Hle]; [done|].
    pose proof (Z.div_le_upper_bound m (2 ^ k) 0 Hpow ltac:(lia)). lia. }
  pose proof (Zdigits2_bounds m Hm) as [Hlow Hup].
  pose proof (Zdigits2_bounds _ Hq) as [Hqlow Hqup].
  assert (k < Zdigits2 m) as Hkd.
  { destruct (Z.lt_ge_cases k (Zdigits2 m)) as [|Hge]; [done|].
    pose proof (Z.pow_le_mono_r 2 (Zdigits2 m) k ltac:(lia) Hge).
    rewrite Z.div_small in Hq by lia. lia. }
  apply Z.le_antisymm.
  - apply Zdigits2_le_pow; [lia|]. split; [lia|].
    apply Z.div_lt_upper_bound; [lia|].
    rewrite <-Z.pow_add_r by lia.
    by replace (k + (Zdigits2 m - k)) with (Zdigits2 m) by lia.
  - pose proof (Zdigits2_ge_pow (m / 2 ^ k) (Zdigits2 m - 1 - k)
                  ltac:(lia)) as Hge.
    assert (2 ^ (Zdigits2 m - 1 - k) <= m / 2 ^ k); [|lia].
    apply Z.div_le_lower_bound; [lia|].
    rewrite <-Z.pow_add_r by lia.
    by replace (k + (Zdigits2 m - 1 - k)) with (Zdigits2 m - 1) by lia.
Qed.

Lemma shr_zero_emin (m e : Z) :
  0 <= m -> enough e m ->
  m / 2 ^ (fexp prec emax (Zdigits2 m + e) - e) = 0 ->
  fexp prec emax (Zdigits2 m + e) = -1074.
Proof.
  intros Hm He Hq. unfold enough in He.
  set (M := Zdigits2 m + e) in *. set (k := fexp prec emax M - e) in *.
  assert (0 <= k) as Hk by (subst k; lia).
  pose proof (Z.pow_pos_nonneg 2 k ltac:(lia) Hk) as Hpow.
  assert (M <= fexp prec emax M) as HM.
  { destruct (decide (m = 0)) as [->|Hm0]; [subst M k; simpl in *; lia|].
    pose proof (Zdigits2_bounds m ltac:(lia)) as [Hlow _].
    assert (m < 2 ^ k) as Hlt.
    { destruct (Z.lt_ge_cases m (2 ^ k)) as [|Hge]; [done|].
      pose proof (Z.div_le_lower_bound m (2 ^ k) 1 Hpow ltac:(lia)). lia. }
    destruct (Z.lt_ge_cases k (Zdigits2 m)) as [Hlt'|Hge]; [|subst M k; lia].
    pose proof (Z.pow_le_mono_r 2 k (Zdigits2 m - 1) ltac:(lia) ltac:(lia)).
    lia. }
  revert HM. unfold fexp, SpecFloat.emin, prec, emax. lia.
Qed.

Lemma binary_round_aux_finite (sx : bool) (m e : Z) (l : location) (K : Z) :
  0 <= m -> enough e m -> Zdigits2 m + e <= K -> -1074 <= K <= 1023 ->
  finite_within (K + 1) (binary_round_aux prec emax sx m e l).
Proof.
  intros Hm He HK HKr. unfold binary_round_aux.
  destruct (shr_fexp_enough m e l Hm He) as [He1 Hm1].
  destruct (shr_fexp prec emax m e l) as [mrs' e1]. cbn [fst snd] in He1, Hm1.
  pose proof He as He'. unfold enough in He'.
  assert (0 <= e1 - e) as Hk by lia.
  pose proof (Z.pow_pos_nonneg 2 (e1 - e) ltac:(lia) Hk) as Hpow.
  assert (0 <= shr_m mrs') as Hm1pos
    by (rewrite Hm1, <-He1; apply Z.div_pos; lia).
  pose proof (round_nearest_even_ge (shr_m mrs') (loc_of_shr_record mrs')).
  pose proof (round_nearest_even_le (shr_m mrs') (loc_of_shr_record mrs')).
  remember (round_nearest_even (shr_m mrs') (loc_of_shr_record mrs')) as m2
    eqn:Hm2def.
  assert (enough e1 m2 /\ Zdigits2 m2 + e1 <= K + 1) as [He2 HK2].
  { destruct (decide (shr_m mrs' = 0)) as [Hz|Hnz].
    - assert (e1 = -1074) as ->.
      { rewrite He1. apply shr_zero_emin; [done..|]. by rewrite <-Hm1. }
      split; [apply fexp_ge_emin|].
      pose proof (Zdigits2_le_pow m2 1 ltac:(lia) ltac:(lia)).
      lia.
    - assert (Zdigits2 (shr_m mrs') + e1 = Zdigits2 m + e) as Hd.
      { rewrite Hm1, <-He1, div_pow2_digits; [lia|done|].
        rewrite He1, <-Hm1. lia. }
      pose proof (Zdigits2_mono (shr_m mrs') m2 ltac:(lia)).
      split.
      + unfold enough. rewrite He1 at 1. apply fexp_mono. lia.
      + pose proof (Zdigits2_bounds (shr_m mrs') ltac:(lia)) as [_ Hup].
        pose proof (Zdigits2_nonneg (shr_m mrs')).
        pose proof (Zdigits2_le_pow m2 (Zdigits2 (shr_m mrs') + 1) ltac:(lia))
          as Hle.
        rewrite Z.pow_add_r, Z.pow_1_r in Hle by lia.
        specialize (Hle ltac:(lia)). lia. }
  assert (0 <= m2) as Hm2 by lia.
  destruct (shr_fexp_enough m2 e1 loc_Exact Hm2 He2) as [He3 Hm3].
  destruct (shr_fexp prec emax m2 e1 loc_Exact) as [mrs'' e2].
  cbn [fst snd] in He3, Hm3.
  assert (0 <= e2 - e1) as Hk2 by (unfold enough in He2; lia).
  pose proof (Z.pow_pos_nonneg 2 (e2 - e1) ltac:(lia) Hk2) as Hpow2.
  assert (0 <= shr_m mrs'') as Hm3pos
    by (rewrite Hm3, <-He3; apply Z.div_pos; lia).
  assert (e2 <= 971) as He971.
  { rewrite He3. pose proof (fexp_mono _ _ HK2) as Hmono.
    revert Hmono. unfold fexp, SpecFloat.emin, prec, emax. lia. }
  destruct (shr_m mrs'') as [|m3|m3] eqn:Hm3eq; [done| |lia].
  destruct (Z.leb_spec e2 (emax - prec)) as [_|Hgt];
    [|unfold emax, prec in Hgt; lia].
  assert (Zdigits2 (Z.pos m3) + e2 = Zdigits2 m2 + e1) as Hd.
  { rewrite Hm3, <-He3, div_pow2_digits; [lia|done|].
    rewrite He3, <-Hm3. lia. }
  split; [|lia]. unfold enough. rewrite Hd. lia.
Qed.

Lemma truediv_finite (c r : positive) (K : Z) :
  Zdigits2 (Z.pos c) <= K -> K <= 1023 ->
  finite_within (K + 1) (truediv (Z.pos c) (Z.pos r)).
Proof.
  intros HK HKr. unfold truediv, SFdiv. cbn [float_of_int xorb].
  unfold SFdiv_core_binary. rewrite !Z.add_0_r, Z.sub_diag.
  pose proof (Zdigits2_bounds (Z.pos c) ltac:(lia)) as [Hclow Hcup].
  pose proof (Zdigits2_bounds (Z.pos r) ltac:(lia)) as [Hrlow Hrup].
  assert (1 <= Zdigits2 (Z.pos c)) as Hd1 by (simpl; lia).
  assert (1 <= Zdigits2 (Z.pos r)) as Hd2 by (simpl; lia).
  set (d1 := Zdigits2 (Z.pos c)) in *. set (d2 := Zdigits2 (Z.pos r)) in *.
  set (e' := Z.min (fexp prec emax (d1 - d2)) 0).
  assert (e' <= 0) as He' by (subst e'; lia).
  assert (match 0 - e' with
          | 0 => Z.pos c
          | Z.pos _ => Z.shiftl (Z.pos c) (0 - e')
          | Z.neg _ => 0
          end = Z.pos c * 2 ^ (- e')) as ->.
  { rewrite Z.sub_0_l. destruct (- e') as [|s|s] eqn:Hs; [simpl; lia| |lia].
    by rewrite Z.shiftl_mul_pow2. }
  pose proof (Z.pow_pos_nonneg 2 (- e') ltac:(lia) ltac:(lia)) as Hpow.
  assert (0 <= Z.pos c * 2 ^ (- e') / Z.pos r) as Hq0
    by (apply Z.div_pos; lia).
  assert (Zdigits2 (Z.pos c * 2 ^ (- e') / Z.pos r) + e' <= d1) as Hmag.
  { assert (Zdigits2 (Z.pos c * 2 ^ (- e') / Z.pos r) <= d1 + - e'); [|lia].
    apply Zdigits2_le_pow; [lia|]. split; [done|].
    apply Z.div_lt_upper_bound; [lia|]. rewrite Z.pow_add_r by lia.
    assert (Z.pos c * 2 ^ (- e') < 2 ^ d1 * 2 ^ (- e')) as H1
      by (apply Z.mul_lt_mono_pos_r; lia).
    assert (1 * (2 ^ d1 * 2 ^ (- e')) <= Z.pos r * (2 ^ d1 * 2 ^ (- e')))
      as H2 by (apply Z.mul_le_mono_nonneg_r; lia).
    lia. }
  assert (enough e' (Z.pos c * 2 ^ (- e') / Z.pos r)) as Hen.
  { unfold enough.
    destruct (decide (fexp prec emax (d1 - d2) = -1074)) as [Hmin|Hnmin].
    { pose proof (fexp_ge_emin
        (Zdigits2 (Z.pos c * 2 ^ (- e') / Z.pos r) + e')). lia. }
    assert (fexp prec emax (d1 - d2) = d1 - d2 - 53) as Hf.
    { revert Hnmin. unfold fexp, SpecFloat.emin, prec, emax. lia. }
    assert (0 <= d1 - 1 + - e' - d2) as Hn by lia.
    assert (2 ^ (d1 - 1 + - e' - d2)
            <= Z.pos c * 2 ^ (- e') / Z.pos r) as Hlow.
    { apply Z.div_le_lower_bound; [lia|].
      pose proof (Z.pow_pos_nonneg 2 (d1 - 1 + - e' - d2) ltac:(lia) Hn).
      assert (2 ^ d2 * 2 ^ (d1 - 1 + - e' - d2)
              = 2 ^ (d1 - 1) * 2 ^ (- e')) as Heq.
      { rewrite <-!Z.pow_add_r by lia. f_equal. lia. }
      nia. }
    apply Zdigits2_ge_pow in Hlow; [|done].
    pose proof (fexp_mono (d1 - d2)
      (Zdigits2 (Z.pos c * 2 ^ (- e') / Z.pos r) + e') ltac:(lia)).
    lia. }
  unfold Z.div in Hq0, Hmag, Hen.
  destruct (Z.div_eucl (Z.pos c * 2 ^ (- e')) (Z.pos r)) as [q rem].
  cbn [fst] in Hq0, Hmag, Hen.
  apply binary_round_aux_finite; [done|done|lia|lia].
Qed.

Lemma mul_int_finite (x : spec_float) (K : Z) :
  finite_within K x -> -1074 <= K + 7 <= 1023 ->
  finite_within (K + 8) (mul_int x 100).
Proof.
  unfold mul_int, SFmul. cbn [float_of_int].
  destruct x as [s|s| |s m e]; cbn [finite_within]; try done.
  intros [Hen Hmag] HK. rewrite Z.add_0_r, Pos2Z.inj_mul.
  pose proof (Zdigits2_bounds (Z.pos m) ltac:(lia)) as [_ Hup].
  pose proof (Zdigits2_nonneg (Z.pos m)) as Hd.
  pose proof (Zdigits2_mono (Z.pos m) (Z.pos m * 100) ltac:(lia)) as Hmono.
  assert (Zdigits2 (Z.pos m * 100) <= Zdigits2 (Z.pos m) + 7) as Hle.
  { apply Zdigits2_le_pow; [lia|]. rewrite Z.pow_add_r by lia.
    change (2 ^ 7) with 128. lia. }
  replace (K + 8) with (K + 7 + 1) by lia.
  apply binary_round_aux_finite; [lia| |lia|lia].
  unfold enough in *. etrans; [exact Hen|]. apply fexp_mono. lia.
Qed.

Lemma int_of_float_finite (x : spec_float) (K : Z) :
  finite_within K x -> is_Some (int_of_float x).
Proof. destruct x; simpl; by eauto. Qed.

Lemma match_score_defined (depth_comp depth_ref : Z) :
  0 <= depth_comp < 2 ^ 1000 -> is_Some (match_score depth_comp depth_ref).
Proof.
  intros [Hc Hlt]. unfold match_score.
  destruct (depth_ref >? 0) eqn:Hr; [|by eexists].
  assert (is_Some (int_of_float (mul_int (truediv depth_comp depth_ref) 100)))
    as [n ->]; [|by eexists].
  destruct depth_ref as [|r|r]; try done.
  destruct depth_comp as [|c|c]; [by eexists| |lia].
  pose proof (Zdigits2_le_pow (Z.pos c) 1000 ltac:(lia) ltac:(lia)) as Hd.
  eapply int_of_float_finite, (mul_int_finite _ 1001); [|lia].
  by apply (truediv_finite c r 1000).
Qed.

(** X19. For a compared tree of depth below [2^1000] the score
    computation does not overflow: it gives a number between 0 and 100,
    which is 100 when the compared tree is at least as deep as the
    reference tree. *)
Theorem analyze_score_defined (data_ref data_comp : LogicNode) :
  get_tree_depth data_comp < 2 ^ 1000 ->
  exists n,
    analyze_score data_ref data_comp = Some n /\ 0 <= n <= 100 /\
    (get_tree_depth data_ref <= get_tree_depth data_comp -> n = 100).
Proof.
  intros Hlt. pose proof (get_tree_depth_pos data_comp) as Hc.
  pose proof (get_tree_depth_pos data_ref) as Hr.
  unfold analyze_score.
  destruct (match_score_defined (get_tree_depth data_comp)
              (get_tree_depth data_ref) ltac:(lia)) as [n Hn].
  exists n. split; [done|].
  split; [eapply match_score_range; [|exact Hn]; lia|].
  intros Hle.
  destruct (match_score_capped (get_tree_depth data_comp)
              (get_tree_depth data_ref) ltac:(lia)) as [H100|Hnone];
    congruence.
Qed.

Lemma analyze_score_defined_witness :
  exists n,
    analyze_score ex1 ex2 = Some n /\ 0 <= n <= 100 /\
    (get_tree_depth ex1 <= get_tree_depth ex2 -> n = 100).
Proof. apply (analyze_score_defined ex1 ex2). reflexivity. Defined.

Lemma id_of_path_prefix (prefix : string) (path : list nat) :
  id_of_path prefix path = prefix +:+ id_of_path "" path.
Proof. by rewrite !id_of_path_ext. Qed.

Lemma make_node_rename (n : LogicNode) (prefix : string) (path : list nat) :
  make_node n (id_of_path prefix path)
  = rename_node (String.append prefix) (make_node n (id_of_path "" path)).
Proof.
  rewrite !make_node_style. unfold rename_node. cbv zeta.
  cbn [node_id node_label node_size node_color node_title].
  by rewrite id_of_path_prefix.
Qed.

(** X20. The prefix only renames: flattening with a prefix gives the
    nodes and edges of flattening with the empty prefix, with the prefix
    put in front of every identifier. *)
Theorem flatten_prefix (node : LogicNode) (prefix : string) :
  flatten node prefix
  = (rename_node (String.append prefix) <$> (flatten node "").1,
     rename_edge (String.append prefix) <$> (flatten node "").2).
Proof.
  rewrite (surjective_pairing (flatten node prefix)).
  rewrite !flatten_nodes, !flatten_edges, <-!list_fmap_compose.
  f_equal; apply list_fmap_ext; intros _ x _; unfold compose;
    first [apply make_node_rename
          |unfold edge_to, rename_edge; simpl;
           by rewrite !(id_of_path_prefix prefix)].
Qed.

End analyzer.

(** ** Counterexamples and instances

    The counterexamples hold whatever [str.upper] does with text that is
    not ASCII; the instances are on ASCII text, where that mapping is not
    consulted, and take [upper_ascii] for it. *)

(** C9 as stated fails: an internal node with relation ["cause"] and no
    text gets the tooltip ["CAUSE"], not its relation ["cause"]. *)
Lemma tooltip_claim_fails :
  ~ (exists unicode_upper : string -> string,
       forall (node : LogicNode) (prefix : string) (v : Node) (t : string),
         (flatten unicode_upper node prefix).1 !! 0%nat = Some v ->
         claimed_tooltip node = Some t -> node_title v = t).
Proof.
  intros [unicode_upper Hclaim].
  specialize (Hclaim (Dict (Some "span") (Some "cause") None None) "x"
                _ "cause" eq_refl eq_refl).
  discriminate Hclaim.
Qed.

Lemma ids_disjoint_witness : "ref_0_1" ∉ ids upper_ascii ex1 "comp".
Proof.
  apply (ids_disjoint upper_ascii ex2 ex1 "ref" "comp" "ref_0_1").
  - discriminate.
  - reflexivity.
  - reflexivity.
  - vm_compute. do 2 apply list_elem_of_further. apply list_elem_of_here.
Defined.

(** C2 as stated fails: with the prefixes ["a"] and ["a_0"], the child of a
    root under the first and the root under the second are both named
    ["a_0_0"]. *)
Lemma prefix_collision :
  ~ (exists unicode_upper : string -> string,
       forall (t1 t2 : LogicNode) (p q x : string),
         p <> q ->
         x ∈ ids unicode_upper t1 p -> x ∉ ids unicode_upper t2 q).
Proof.
  intros [unicode_upper Hclaim].
  pose (t := Dict (Some "span") None None
               (Some [Dict (Some "leaf") None None None])).
  apply (Hclaim t t "a" "a_0" "a_0_0").
  - discriminate.
  - apply list_elem_of_further, list_elem_of_here.
  - apply list_elem_of_here.
Qed.

Lemma flatten_source_before_target_witness :
  ids upper_ascii ex2 "x" !! 2%nat = Some "x_0_1" /\
  exists j, (j <= 1)%nat /\ ids upper_ascii ex2 "x" !! j = Some "x_0".
Proof.
  apply (flatten_source_before_target upper_ascii ex2 "x" 1
           (mkEdge "x_0" "x_0_1" "#B0BEC5")).
  reflexivity.
Defined.

Lemma on_click_server_error_witness :
  on_click upper_ascii "http://h" "a" "b"
    (Response 200 (inr (Tree ex1))) (Response 500 (inl "x"))
  = [Post "http://h/parse" "a"; Post "http://h/parse" "b";
     StError "Server Error: 200"].
Proof.
  apply (on_click_server_error upper_ascii "http://h" "a" "b" 200 500
           (inr (Tree ex1)) (inl "x")).
  - discriminate.
  - intros [_ H]. discriminate H.
Defined.
